(** * logger: connection-oriented, level-based logging

    A shallow embedding of [src/logger/logger.go] together with the parts of
    Go's standard packages [fmt] and [log] that the logger calls, followed by
    the properties of the package's routing, tagging, colouring and
    shutdown behaviour. *)

From Stdlib Require Import ZArith List String Ascii Bool Lia.
From ExtLib Require Import Structures.Monad Structures.MonadState.
From ExtLib Require Import Data.Monads.StateMonad.
Import ListNotations.
Import MonadNotation.

Local Open Scope monad_scope.
Local Open Scope string_scope.
Local Open Scope Z_scope.

(* ===================================================================== *)
(** ** Go values and errors *)

(** The operands a caller hands to the logger are [interface{}] values.
    The embedding covers integers, strings, booleans and the nil interface;
    Go's [int] is read as an integer of [Z] (no arithmetic is done on it). *)
Inductive value : Type :=
| VInt (z : Z)
| VStr (s : string)
| VBool (b : bool)
| VNil.

(** Go's [error]: [None] is the nil error. *)
Definition error : Type := option string.

(** [byte(z)]: conversion of an integer to a byte. *)
Definition byte (z : Z) : ascii := ascii_of_N (Z.to_N (z mod 256)).

Definition newline : ascii := "010"%char.

(* ===================================================================== *)
(** ** Writers, the observable stream and the process environment *)

(** An [io.Writer] the package can be handed.  [Discard] is
    [ioutil.Discard], [Stdout] is [os.Stdout], and [Sink id closer] is any
    other (non-nil) writer object; [closer] tells whether its dynamic type
    also implements [io.Closer]. *)
Inductive writer : Type :=
| Discard
| Stdout
| Sink (id : nat) (closer : bool).

Definition writer_eqb (a b : writer) : bool :=
  match a, b with
  | Discard, Discard => true
  | Stdout, Stdout => true
  | Sink i c, Sink j d => Nat.eqb i j && Bool.eqb c d
  | _, _ => false
  end.

(** What the outside world sees, in the order it happens: the byte
    sequences handed to a writer and the releases of a closer. *)
Inductive event : Type :=
| Wrote (w : writer) (p : string)
| Closed (w : writer).

(** A broken-down wall-clock instant, as [time.Time] yields it through
    [Date], [Clock] and [Nanosecond]. *)
Record Time : Type := mkTime {
  year : Z; month : Z; day : Z;
  hour : Z; minute : Z; second : Z;
  nanosecond : Z
}.

(** The environment of the process: its id, its clock, and how the
    writers answer.  Each answer may depend on everything that has
    happened so far. *)
Record Env : Type := mkEnv {
  Getpid : Z;
  Now : list event -> Time;
  writeResult : list event -> writer -> string -> error;
  closeResult : list event -> writer -> error
}.

(** Computations that only touch the outside world. *)
Definition IO : Type -> Type := state (list event).

(** [w.Write(p)]: bytes sent to [ioutil.Discard] vanish. *)
Definition Write (env : Env) (w : writer) (p : string) : IO error :=
  match w with
  | Discard => ret None
  | _ =>
      seen <- get ;;
      put (seen ++ [Wrote w p])%list ;;
      ret (writeResult env seen w p)
  end.

(** [c.Close()] on a writer that implements [io.Closer]. *)
Definition CloseWriter (env : Env) (c : writer) : IO error :=
  seen <- get ;;
  put (seen ++ [Closed c])%list ;;
  ret (closeResult env seen c).

(* ===================================================================== *)
(** ** Package fmt (the fragment the logger reaches) *)

Module fmt.

(** Decimal digits of a non-negative integer, most significant first.  The
    fuel is the size of the digit buffer, enough for any 64-bit integer. *)
Fixpoint fmtDigits (fuel : nat) (n : Z) (acc : string) : string :=
  match fuel with
  | O => acc
  | S fuel' =>
      let next := n / 10 in
      let acc' := String (byte (48 + (n - next * 10))) acc in
      if n <? 10 then acc' else fmtDigits fuel' next acc'
  end.

(** [%v] / [%d] of an integer. *)
Definition fmtInteger (z : Z) : string :=
  if z <? 0 then String "-" (fmtDigits 68 (- z) "") else fmtDigits 68 z "".

(** The default format [%v] of an operand. *)
Definition printValue (x : value) : string :=
  match x with
  | VInt z => fmtInteger z
  | VStr s => s
  | VBool true => "true"
  | VBool false => "false"
  | VNil => "<nil>"
  end.

(** [reflect.TypeOf(arg).String()] for the operands of the embedding. *)
Definition typeString (x : value) : string :=
  match x with
  | VInt _ => "int"
  | VStr _ => "string"
  | VBool _ => "bool"
  | VNil => "<nil>"
  end.

(** [type=value], or [<nil>] for the nil interface. *)
Definition typedOperand (x : value) : string :=
  match x with
  | VNil => "<nil>"
  | _ => typeString x ++ "=" ++ printValue x
  end.

Definition badVerb (verb : ascii) (x : value) : string :=
  "%!" ++ String verb ("(" ++ typedOperand x ++ ")").

(** [printArg]: the verbs [v], [d] and [s] on the operands of the
    embedding; any other pairing is reported the way [badVerb] does.
    Flags, widths, explicit argument indexes and the remaining verbs of
    Go's [fmt] are outside this fragment. *)
Definition printArg (x : value) (verb : ascii) : string :=
  match x, verb with
  | VNil, "v"%char => "<nil>"
  | VInt _, ("v" | "d")%char => printValue x
  | VStr _, ("v" | "s")%char => printValue x
  | VBool _, "v"%char => printValue x
  | _, _ => badVerb verb x
  end.

Fixpoint extraOperands (a : list value) : string :=
  match a with
  | [] => ""
  | [x] => typedOperand x
  | x :: rest => typedOperand x ++ ", " ++ extraOperands rest
  end.

(** Operands left over once the format is consumed. *)
Definition extra (a : list value) : string :=
  match a with
  | [] => ""
  | _ => "%!(EXTRA " ++ extraOperands a ++ ")"
  end.

(** [Sprintf(format, a...)]. *)
Fixpoint Sprintf (format : string) (a : list value) : string :=
  match format with
  | EmptyString => extra a
  | String "%" EmptyString => "%!(NOVERB)" ++ extra a
  | String "%" (String verb rest) =>
      if Ascii.eqb verb "%" then String "%" (Sprintf rest a)
      else match a with
           | [] => "%!" ++ String verb ("(MISSING)" ++ Sprintf rest [])
           | x :: a' => printArg x verb ++ Sprintf rest a'
           end
  | String c rest => String c (Sprintf rest a)
  end.

(** Is every directive of [format] one of [%v], [%d], [%s] and [%%]?  On
    such formats [Sprintf] above renders what Go renders. *)
Fixpoint plainVerbs (format : string) : bool :=
  match format with
  | EmptyString => true
  | String "%" EmptyString => false
  | String "%" (String verb rest) =>
      (Ascii.eqb verb "v" || Ascii.eqb verb "d" || Ascii.eqb verb "s"
       || Ascii.eqb verb "%")
      && plainVerbs rest
  | String _ rest => plainVerbs rest
  end.

(** The operands of [Sprintln]: a space between any two of them. *)
Fixpoint printlnOperands (a : list value) : string :=
  match a with
  | [] => ""
  | [x] => printValue x
  | x :: rest => printValue x ++ " " ++ printlnOperands rest
  end.

(** [Sprintln(a...)]: spaces are always added between operands and a
    newline is appended. *)
Definition Sprintln (a : list value) : string :=
  printlnOperands a ++ String newline "".

(** [Fprintf(w, format, a...)]: one write of the formatted text. *)
Definition Fprintf (env : Env) (w : writer) (format : string) (a : list value)
  : IO error :=
  Write env w (Sprintf format a).

End fmt.

(* ===================================================================== *)
(** ** Package log (the fragment the logger reaches) *)

Module log.

Definition Ldate : Z := 1.
Definition Ltime : Z := 2.
Definition Lmicroseconds : Z := 4.
Definition Lmsgprefix : Z := 64.

(** A [*log.Logger]: the prefix, the flags and the destination given to
    [log.New]. *)
Record Logger : Type := mkLogger {
  prefix : string;
  flag : Z;
  out : writer
}.

Definition New (out : writer) (prefix : string) (flag : Z) : Logger :=
  {| prefix := prefix; flag := flag; out := out |}.

(** The loop of [itoa]: fixed-width decimal, filled from the right into a
    buffer of twenty bytes. *)
Fixpoint itoaLoop (room : nat) (i wid : Z) (b : string) : string :=
  match room with
  | O => b
  | S room' =>
      if (i >=? 10) || (wid >? 1) then
        let q := Z.quot i 10 in
        itoaLoop room' q (wid - 1) (String (byte (48 + i - q * 10)) b)
      else String (byte (48 + i)) b
  end.

Definition itoa (i wid : Z) : string := itoaLoop 20 i wid "".

Definition has (flags bit : Z) : bool := negb (Z.land flags bit =? 0).

(** [formatHeader]: the prefix opens the line unless [Lmsgprefix] is set,
    then come the date and the time the flags ask for.  (The file and UTC
    flags, which this package never sets, are not part of the fragment.) *)
Definition formatHeader (l : Logger) (t : Time) : string :=
  (if has (flag l) Lmsgprefix then "" else prefix l)
  ++ (if has (flag l) (Z.lor Ldate (Z.lor Ltime Lmicroseconds)) then
        (if has (flag l) Ldate then
           itoa (year t) 4 ++ "/" ++ itoa (month t) 2 ++ "/"
           ++ itoa (day t) 2 ++ " "
         else "")
        ++ (if has (flag l) (Z.lor Ltime Lmicroseconds) then
              itoa (hour t) 2 ++ ":" ++ itoa (minute t) 2 ++ ":"
              ++ itoa (second t) 2
              ++ (if has (flag l) Lmicroseconds then
                    "." ++ itoa (Z.quot (nanosecond t) 1000) 6
                  else "")
              ++ " "
            else "")
      else "")
  ++ (if has (flag l) Lmsgprefix then prefix l else "").

(** Does [s] end with a newline? *)
Fixpoint endsWithNewline (s : string) : bool :=
  match s with
  | EmptyString => false
  | String c EmptyString => Ascii.eqb c newline
  | String _ rest => endsWithNewline rest
  end.

(** The buffer [Output] hands to the writer. *)
Definition line (l : Logger) (t : Time) (s : string) : string :=
  formatHeader l t ++ s
  ++ (if endsWithNewline s then "" else String newline "").

(** [l.Output(calldepth, s)]: read the clock, build the line, and hand it
    to the destination in a single write. *)
Definition Output (env : Env) (l : Logger) (s : string) : IO error :=
  seen <- get ;;
  Write env (out l) (line l (Now env seen) s).

(** [l.Println(v...)]; the result of [Output] is dropped. *)
Definition Println (env : Env) (l : Logger) (v : list value) : IO unit :=
  Output env l (fmt.Sprintln v) ;; ret tt.

(** [l.Printf(format, v...)]; the result of [Output] is dropped. *)
Definition Printf (env : Env) (l : Logger) (format : string) (v : list value)
  : IO unit :=
  Output env l (fmt.Sprintf format v) ;; ret tt.

End log.

(* ===================================================================== *)
(** ** Package logger *)

Module logger.

(** default level for logger. *)
Definition logInfoLabel : string := "[info] ".
Definition logTraceLabel : string := "[trace] ".
Definition logWarnLabel : string := "[warn] ".
Definition logErrorLabel : string := "[error] ".

(** [Context] is [interface{}]: the nil interface, a value whose type
    implements [cidContext] (its [Cid()] answers [cid]), or any other
    value. *)
Inductive Context : Type :=
| nilContext
| cidContext (cid : Z)
| otherContext (shape : nat).

(** A [*loggerPlus]: the object's address and its [logger] field.  The
    address is what [v == Error] compares; address [0] is the nil
    pointer. *)
Record loggerPlus : Type := mkLoggerPlus {
  self : nat;
  logger : log.Logger
}.

Definition same (v u : loggerPlus) : bool := Nat.eqb (self v) (self u).

(** The package-level variables, the allocator of [loggerPlus] objects and
    the stream of the outside world. *)
Record World : Type := mkWorld {
  Info : loggerPlus;
  Trace : loggerPlus;
  Warn : loggerPlus;
  Error : loggerPlus;
  previousIo : option writer;
  fresh : nat;
  stream : list event
}.

Definition Go : Type -> Type := state World.

Definition setInfo (v : loggerPlus) : Go unit :=
  modify (fun g => mkWorld v (Trace g) (Warn g) (Error g) (previousIo g) (fresh g) (stream g)) ;; ret tt.
Definition setTrace (v : loggerPlus) : Go unit :=
  modify (fun g => mkWorld (Info g) v (Warn g) (Error g) (previousIo g) (fresh g) (stream g)) ;; ret tt.
Definition setWarn (v : loggerPlus) : Go unit :=
  modify (fun g => mkWorld (Info g) (Trace g) v (Error g) (previousIo g) (fresh g) (stream g)) ;; ret tt.
Definition setError (v : loggerPlus) : Go unit :=
  modify (fun g => mkWorld (Info g) (Trace g) (Warn g) v (previousIo g) (fresh g) (stream g)) ;; ret tt.
Definition setPreviousIo (c : option writer) : Go unit :=
  modify (fun g => mkWorld (Info g) (Trace g) (Warn g) (Error g) c (fresh g) (stream g)) ;; ret tt.

(** Run a computation of the outside world on the world's stream. *)
Definition io {A : Type} (c : IO A) : Go A :=
  g <- get ;;
  let (a, seen) := runState c (stream g) in
  put (mkWorld (Info g) (Trace g) (Warn g) (Error g) (previousIo g) (fresh g) seen) ;;
  ret a.

(** [w.(io.Closer)]: the type assertion, with its [ok]. *)
Definition asCloser (w : writer) : option writer :=
  match w with
  | Discard => None
  | Stdout => Some Stdout
  | Sink _ true => Some w
  | Sink _ false => None
  end.

Definition NewLoggerPlus (l : log.Logger) : Go loggerPlus :=
  g <- get ;;
  put (mkWorld (Info g) (Trace g) (Warn g) (Error g) (previousIo g) (S (fresh g)) (stream g)) ;;
  ret {| self := fresh g; logger := l |}.

Definition colorYellow : string := String "027" "[33m".
Definition colorRed : string := String "027" "[31m".
Definition colorBlack : string := String "027" "[0m".

Section Process.

Variable env : Env.

Definition format (ctx : Context) (a : list value) : list value :=
  match ctx with
  | nilContext =>
      VStr (fmt.Sprintf "[%v] " [VInt (Getpid env)]) :: a
  | cidContext cid =>
      VStr (fmt.Sprintf "[%v][%v] " [VInt (Getpid env); VInt cid]) :: a
  | otherContext _ => a
  end.

Definition formatf (ctx : Context) (format : string) (a : list value)
  : string * list value :=
  match ctx with
  | nilContext => ("[%v] " ++ format, VInt (Getpid env) :: a)
  | cidContext cid =>
      ("[%v][%v] " ++ format, VInt (Getpid env) :: VInt cid :: a)
  | otherContext _ => (format, a)
  end.

Definition doPrintln (v : loggerPlus) (args : list value) : Go unit :=
  prev <- gets previousIo ;;
  match prev with
  | None =>
      err <- gets Error ;;
      if same v err then
        io (fmt.Fprintf env Stdout colorRed []) ;;
        io (log.Println env (logger v) args) ;;
        io (fmt.Fprintf env Stdout colorBlack []) ;;
        ret tt
      else
        wrn <- gets Warn ;;
        if same v wrn then
          io (fmt.Fprintf env Stdout colorYellow []) ;;
          io (log.Println env (logger v) args) ;;
          io (fmt.Fprintf env Stdout colorBlack []) ;;
          ret tt
        else
          io (log.Println env (logger v) args)
  | Some _ =>
      io (log.Println env (logger v) args)
  end.

Definition doPrintf (v : loggerPlus) (format : string) (args : list value)
  : Go unit :=
  prev <- gets previousIo ;;
  match prev with
  | None =>
      err <- gets Error ;;
      if same v err then
        io (fmt.Fprintf env Stdout colorRed []) ;;
        io (log.Printf env (logger v) format args) ;;
        io (fmt.Fprintf env Stdout colorBlack []) ;;
        ret tt
      else
        wrn <- gets Warn ;;
        if same v wrn then
          io (fmt.Fprintf env Stdout colorYellow []) ;;
          io (log.Printf env (logger v) format args) ;;
          io (fmt.Fprintf env Stdout colorBlack []) ;;
          ret tt
        else
          io (log.Printf env (logger v) format args)
  | Some _ =>
      io (log.Printf env (logger v) format args)
  end.

(** Modelled from the spec: the [Println] method of [loggerPlus] is not in
    this file of the package.  Section 4.2, writeLine: resolve the tag,
    join it with the caller's arguments, and pass them to the channel's
    line-writing primitive. *)
Definition Println (v : loggerPlus) (ctx : Context) (a : list value)
  : Go unit :=
  doPrintln v (format ctx a).

(** Modelled from the spec: the [Printf] method of [loggerPlus] is not in
    this file of the package.  Section 4.2, writeFormatted: resolve the
    tag as a format and argument pair, then delegate to the formatted
    write. *)
Definition Printf (v : loggerPlus) (ctx : Context) (format : string)
  (a : list value) : Go unit :=
  let (format', a') := formatf ctx format a in
  doPrintf v format' a'.

(** Alias for Info level println. *)
Definition I (ctx : Context) (a : list value) : Go unit :=
  v <- gets Info ;; Println v ctx a.

(** Printf for Info level log. *)
Definition If (ctx : Context) (format : string) (a : list value) : Go unit :=
  v <- gets Info ;; Printf v ctx format a.

(** Alias for Trace level println. *)
Definition T (ctx : Context) (a : list value) : Go unit :=
  v <- gets Trace ;; Println v ctx a.

(** Printf for Trace level log. *)
Definition Tf (ctx : Context) (format : string) (a : list value) : Go unit :=
  v <- gets Trace ;; Printf v ctx format a.

(** Alias for Warn level println. *)
Definition W (ctx : Context) (a : list value) : Go unit :=
  v <- gets Warn ;; Println v ctx a.

(** Printf for Warn level log. *)
Definition Wf (ctx : Context) (format : string) (a : list value) : Go unit :=
  v <- gets Warn ;; Printf v ctx format a.

(** Alias for Error level println. *)
Definition E (ctx : Context) (a : list value) : Go unit :=
  v <- gets Error ;; Println v ctx a.

(** Printf for Error level log. *)
Definition Ef (ctx : Context) (format : string) (a : list value) : Go unit :=
  v <- gets Error ;; Printf v ctx format a.

(** [log.Ldate|log.Ltime|log.Lmicroseconds] *)
Definition stamp : Z := Z.lor (Z.lor log.Ldate log.Ltime) log.Lmicroseconds.

Definition init : Go unit :=
  (v <- NewLoggerPlus (log.New Discard logInfoLabel stamp) ;; setInfo v) ;;
  (v <- NewLoggerPlus (log.New Stdout logTraceLabel stamp) ;; setTrace v) ;;
  (v <- NewLoggerPlus (log.New Stdout logWarnLabel stamp) ;; setWarn v) ;;
  (v <- NewLoggerPlus (log.New Stdout logErrorLabel stamp) ;; setError v).

(** Switch the underlayer io. *)
Definition Switch (w : writer) : Go unit :=
  (v <- NewLoggerPlus (log.New Discard logInfoLabel stamp) ;; setInfo v) ;;
  (v <- NewLoggerPlus (log.New w logTraceLabel stamp) ;; setTrace v) ;;
  (v <- NewLoggerPlus (log.New w logWarnLabel stamp) ;; setWarn v) ;;
  (v <- NewLoggerPlus (log.New w logErrorLabel stamp) ;; setError v) ;;
  match asCloser w with
  | Some c => setPreviousIo (Some c)
  | None => ret tt
  end.

(** Cleanup the logger, discard any log util switch to fresh writer. *)
Definition Close : Go error :=
  (v <- NewLoggerPlus (log.New Discard logInfoLabel stamp) ;; setInfo v) ;;
  (v <- NewLoggerPlus (log.New Discard logTraceLabel stamp) ;; setTrace v) ;;
  (v <- NewLoggerPlus (log.New Discard logWarnLabel stamp) ;; setWarn v) ;;
  (v <- NewLoggerPlus (log.New Discard logErrorLabel stamp) ;; setError v) ;;
  prev <- gets previousIo ;;
  match prev with
  | Some c =>
      err <- io (CloseWriter env c) ;;
      setPreviousIo None ;;
      ret err
  | None => ret None
  end.

(** The four levels, the package variable of each, and its two entry
    points. *)
Inductive Level : Type := atInfo | atTrace | atWarn | atError.

Definition channel (l : Level) : World -> loggerPlus :=
  match l with
  | atInfo => Info
  | atTrace => Trace
  | atWarn => Warn
  | atError => Error
  end.

Definition emit (l : Level) : Context -> list value -> Go unit :=
  match l with
  | atInfo => I
  | atTrace => T
  | atWarn => W
  | atError => E
  end.

Definition emitf (l : Level) : Context -> string -> list value -> Go unit :=
  match l with
  | atInfo => If
  | atTrace => Tf
  | atWarn => Wf
  | atError => Ef
  end.

(** What a client of the package can do, one call at a time. *)
Inductive call : Type :=
| Emit (l : Level) (ctx : Context) (a : list value)
| Emitf (l : Level) (ctx : Context) (format : string) (a : list value)
| DoSwitch (w : writer)
| DoClose.

Definition perform (c : call) : Go unit :=
  match c with
  | Emit l ctx a => emit l ctx a
  | Emitf l ctx format a => emitf l ctx format a
  | DoSwitch w => Switch w
  | DoClose => Close ;; ret tt
  end.

End Process.

(** The package variables before [init] has run: nil loggers, no tracked
    closer, nothing written yet. *)
Definition nilLoggerPlus : loggerPlus :=
  {| self := 0; logger := log.New Discard "" 0 |}.

Definition zero : World :=
  mkWorld nilLoggerPlus nilLoggerPlus nilLoggerPlus nilLoggerPlus None 1 [].

(** The world a program finds when [main] starts. *)
Definition start : World := execState init zero.

(** One call made in the world [g]. *)
Definition step (env : Env) (g : World) (c : call) : World :=
  execState (perform env c) g.

(** The world after a client has made the calls [cs], in order. *)
Definition after (env : Env) (cs : list call) : World :=
  fold_left (step env) cs start.

(** What a computation adds to the stream of the outside world. *)
Definition emitted {A : Type} (c : Go A) (g : World) : list event :=
  skipn (List.length (stream g)) (stream (execState c g)).

(** The events of one write of [p] to [w]. *)
Definition shown (w : writer) (p : string) : list event :=
  match w with
  | Discard => []
  | _ => [Wrote w p]
  end.

(** The call the client made last that installed a releasable writer and
    has not been followed by a [Close]. *)
Fixpoint tracked (held : option writer) (cs : list call) : option writer :=
  match cs with
  | [] => held
  | DoSwitch w :: rest =>
      tracked (match asCloser w with Some c => Some c | None => held end) rest
  | DoClose :: rest => tracked None rest
  | _ :: rest => tracked held rest
  end.

Definition isSwitch (c : call) : bool :=
  match c with DoSwitch _ => true | _ => false end.

Definition isClose (c : call) : bool :=
  match c with DoClose => true | _ => false end.

End logger.

(* ===================================================================== *)
(** ** Line layouts *)

Module layout.

(** One position of a line layout: a decimal digit or a given byte. *)
Inductive item : Type :=
| digit
| lit (c : ascii).

Definition isDigit (c : ascii) : bool :=
  let n := N_of_ascii c in (48 <=? n)%N && (n <=? 57)%N.

(** Does the whole of [s] follow the layout [p]? *)
Fixpoint follows (p : list item) (s : string) : bool :=
  match p, s with
  | [], EmptyString => true
  | digit :: p', String c s' => isDigit c && follows p' s'
  | lit a :: p', String c s' => Ascii.eqb a c && follows p' s'
  | _, _ => false
  end.

Fixpoint text (s : string) : list item :=
  match s with
  | EmptyString => []
  | String c s' => lit c :: text s'
  end.

Definition digits (n : nat) : list item := repeat digit n.

(** Does [needle] occur somewhere in [hay]? *)
Fixpoint occurs (needle hay : string) : bool :=
  String.prefix needle hay
  || match hay with
     | EmptyString => false
     | String _ hay' => occurs needle hay'
     end.

(** [\d{4}/\d{2}/\d{2} \d{2}:\d{2}:\d{2}\.\d{6}] *)
Definition timestamp : list item :=
  (digits 4 ++ text "/" ++ digits 2 ++ text "/" ++ digits 2 ++ text " "
   ++ digits 2 ++ text ":" ++ digits 2 ++ text ":" ++ digits 2 ++ text "."
   ++ digits 6)%list.

(** Timestamp first, then the label, the pid tag and the message, and the
    line terminator. *)
Definition stampThenLabel (label rest : string) : list item :=
  (timestamp ++ text " " ++ text label ++ text rest ++ [lit newline])%list.

(** The label first, then the timestamp, then the rest of the line, and
    the line terminator. *)
Definition labelThenStamp (label rest : string) : list item :=
  (text label ++ timestamp ++ text " " ++ text rest ++ [lit newline])%list.

End layout.

(* ===================================================================== *)
(** ** Observations *)

Import logger.

(** The world [g] with its stream replaced. *)
Definition withStream (g : World) (seen : list event) : World :=
  mkWorld (Info g) (Trace g) (Warn g) (Error g) (previousIo g) (fresh g) seen.

(** The world once the four package variables are bound to fresh loggers:
    Info to [Discard], the other three to [w]; [held] is the tracked
    closer. *)
Definition rebound (w : writer) (held : option writer) (g : World) : World :=
  let n := fresh g in
  mkWorld (mkLoggerPlus n (log.New Discard logInfoLabel stamp))
          (mkLoggerPlus (S n) (log.New w logTraceLabel stamp))
          (mkLoggerPlus (S (S n)) (log.New w logWarnLabel stamp))
          (mkLoggerPlus (S (S (S n))) (log.New w logErrorLabel stamp))
          held (S (S (S (S n)))) (stream g).

(** One line of [msg] through the logger [l], when [seen] has happened. *)
Definition plain (env : Env) (l : log.Logger) (seen : list event)
  (msg : string) : list event :=
  shown (log.out l) (log.line l (Now env seen) msg).

(** The same line between the colour [c] and the reset, both on standard
    output. *)
Definition coloured (env : Env) (c : string) (l : log.Logger)
  (seen : list event) (msg : string) : list event :=
  (Wrote Stdout c :: plain env l (seen ++ [Wrote Stdout c]) msg
   ++ [Wrote Stdout colorBlack])%list.

(** What [doPrintln] and [doPrintf] add to the stream for the receiver
    [v] and the text [msg]. *)
Definition written (env : Env) (v : loggerPlus) (g : World) (msg : string)
  : list event :=
  match previousIo g with
  | None =>
      if same v (Error g) then coloured env colorRed (logger v) (stream g) msg
      else if same v (Warn g) then
        coloured env colorYellow (logger v) (stream g) msg
      else plain env (logger v) (stream g) msg
  | Some _ => plain env (logger v) (stream g) msg
  end.

(** What a write of the text [msg] at level [l] adds to the stream. *)
Definition outcome (env : Env) (l : Level) (g : World) (msg : string)
  : list event :=
  let v := logger (channel l g) in
  match previousIo g, l with
  | None, atError => coloured env colorRed v (stream g) msg
  | None, atWarn => coloured env colorYellow v (stream g) msg
  | _, _ => plain env v (stream g) msg
  end.

(** The loggers that [doPrintln] tells apart are different objects. *)
Definition apart (g : World) : bool :=
  negb (same (Info g) (Warn g)) && negb (same (Info g) (Error g))
  && negb (same (Trace g) (Warn g)) && negb (same (Trace g) (Error g))
  && negb (same (Warn g) (Error g)).

(** Was something written to [w]? *)
Definition reaches (w : writer) (evs : list event) : bool :=
  existsb (fun e => match e with
                    | Wrote w' _ => writer_eqb w w'
                    | Closed _ => false
                    end) evs.

(** The writers released, in order. *)
Definition released (evs : list event) : list writer :=
  flat_map (fun e => match e with Closed w => [w] | Wrote _ _ => [] end) evs.

(** [n] calls of [Close] in a row. *)
Fixpoint closes (env : Env) (n : nat) : Go error :=
  match n with
  | O => ret None
  | S n' => Close env ;; closes env n'
  end.

(** The same process with writers that answer differently. *)
Definition answering (env : Env)
  (wr : list event -> writer -> string -> error)
  (cr : list event -> writer -> error) : Env :=
  mkEnv (Getpid env) (Now env) wr cr.

(** [w] was handed to [Switch] among the calls [cs] and can be released. *)
Definition installed (cs : list call) (w : writer) : Prop :=
  In (DoSwitch w) cs /\ asCloser w = Some w.

(** Nothing tracked and every channel on [Discard]. *)
Definition shut (g : World) : Prop :=
  previousIo g = None
  /\ log.out (logger (Info g)) = Discard
  /\ log.out (logger (Trace g)) = Discard
  /\ log.out (logger (Warn g)) = Discard
  /\ log.out (logger (Error g)) = Discard.

(** The fields of an instant lie in their calendar ranges. *)
Definition calendar (t : Time) : Prop :=
  0 <= year t <= 9999 /\ 1 <= month t <= 12 /\ 1 <= day t <= 31
  /\ 0 <= hour t <= 23 /\ 0 <= minute t <= 59 /\ 0 <= second t <= 59
  /\ 0 <= nanosecond t <= 999999999.

(** A sample process: pid 1234, a clock that reads
    2016-01-02 15:04:05.123456, writers and closers that never fail. *)
Definition demo : Env :=
  mkEnv 1234 (fun _ => mkTime 2016 1 2 15 4 5 123456)
        (fun _ _ _ => None) (fun _ _ => None).

(** The label each level's channel is created with. *)
Definition label (l : Level) : string :=
  match l with
  | atInfo => logInfoLabel
  | atTrace => logTraceLabel
  | atWarn => logWarnLabel
  | atError => logErrorLabel
  end.

(** Every package logger lives below the allocator's next address. *)
Definition housed (g : World) : Prop :=
  (self (Info g) < fresh g /\ self (Trace g) < fresh g
   /\ self (Warn g) < fresh g /\ self (Error g) < fresh g)%nat.

(** Every channel carries its own label and the date, time and
    microsecond flags. *)
Definition labelled (g : World) : Prop :=
  forall l, log.prefix (logger (channel l g)) = label l
            /\ log.flag (logger (channel l g)) = stamp.

(** The object at address [n] exists and is neither the Warn nor the
    Error logger of the package. *)
Definition foreign (n : nat) (g : World) : Prop :=
  (n < fresh g)%nat /\ self (Error g) <> n /\ self (Warn g) <> n.

(** What has been added to the stream between the worlds [g] and [g']. *)
Definition since (g g' : World) : list event :=
  skipn (List.length (stream g)) (stream g').

Definition isSwitchOf (w : writer) (c : call) : bool :=
  match c with
  | DoSwitch x => writer_eqb w x
  | _ => false
  end.

(** How often [w] was handed to [Switch] among the calls [cs]. *)
Definition installs (w : writer) (cs : list call) : nat :=
  List.length (filter (isSwitchOf w) cs).

(** How often [w] occurs among the writers [ws]. *)
Definition times (w : writer) (ws : list writer) : nat :=
  List.length (filter (writer_eqb w) ws).

(** The text [format] puts in front of the operands. *)
Definition tagText (env : Env) (ctx : Context) : string :=
  match ctx with
  | nilContext => "[" ++ fmt.fmtInteger (Getpid env) ++ "] "
  | cidContext cid =>
      "[" ++ fmt.fmtInteger (Getpid env) ++ "][" ++ fmt.fmtInteger cid ++ "] "
  | otherContext _ => ""
  end.

(** The layout of a line of level [l] that carries the text [msg]. *)
Definition lineLayout (l : Level) (msg : string) : list layout.item :=
  (layout.text (label l) ++ layout.timestamp ++ layout.text " "
   ++ layout.text msg
   ++ (if log.endsWithNewline msg then [] else [layout.lit newline]))%list.

Definition isColour (p : string) : bool :=
  String.eqb p colorRed || String.eqb p colorYellow || String.eqb p colorBlack.

Definition owed (w : writer) (g : World) : nat :=
  match previousIo g with
  | Some x => if writer_eqb w x then 1%nat else 0%nat
  | None => 0%nat
  end.

(* ===================================================================== *)
(** ** Nil interface values and panics *)

(** The package once more, this time with the interface values a caller
    can really pass (an [io.Writer] may be the nil interface, a context's
    [Cid()] may panic) and with calls that either return or panic. *)
Module nilable.

(** An [io.Writer] value: the nil interface, or a writer. *)
Definition ioWriter : Type := option writer.

(** A [Context] value: one of the three shapes of [logger.Context], or a
    value that implements [cidContext] and whose [Cid()] panics (a nil
    pointer behind the interface whose method reads a field). *)
Inductive Context : Type :=
| given (ctx : logger.Context)
| cidPanics.

(** How a call ends. *)
Inductive result (A : Type) : Type :=
| Returned (a : A)
| Panicked.

Arguments Returned {A} a.
Arguments Panicked {A}.

(** A [*log.Logger] whose destination may be the nil interface. *)
Record Logger : Type := mkLogger {
  prefix : string;
  flag : Z;
  out : ioWriter
}.

Definition New (out : ioWriter) (prefix : string) (flag : Z) : Logger :=
  {| prefix := prefix; flag := flag; out := out |}.

Record loggerPlus : Type := mkLoggerPlus {
  self : nat;
  logger : Logger
}.

Definition same (v u : loggerPlus) : bool := Nat.eqb (self v) (self u).

Record World : Type := mkWorld {
  Info : loggerPlus;
  Trace : loggerPlus;
  Warn : loggerPlus;
  Error : loggerPlus;
  previousIo : option writer;
  fresh : nat;
  stream : list event
}.

(** A computation on the world that returns or panics; a panic stops the
    call where it happens and leaves the world as it then is. *)
Definition Go (A : Type) : Type := World -> result A * World.

#[global] Instance Monad_Go : Monad Go := {
  ret := fun _ a g => (Returned a, g);
  bind := fun _ _ c k g =>
            match c g with
            | (Returned a, g') => k a g'
            | (Panicked, g') => (Panicked, g')
            end
}.

Definition panic {A : Type} : Go A := fun g => (Panicked, g).

Definition read {A : Type} (field : World -> A) : Go A :=
  fun g => (Returned (field g), g).

Definition update (change : World -> World) : Go unit :=
  fun g => (Returned tt, change g).

Definition setInfo (v : loggerPlus) : Go unit :=
  update (fun g => mkWorld v (Trace g) (Warn g) (Error g) (previousIo g) (fresh g) (stream g)).
Definition setTrace (v : loggerPlus) : Go unit :=
  update (fun g => mkWorld (Info g) v (Warn g) (Error g) (previousIo g) (fresh g) (stream g)).
Definition setWarn (v : loggerPlus) : Go unit :=
  update (fun g => mkWorld (Info g) (Trace g) v (Error g) (previousIo g) (fresh g) (stream g)).
Definition setError (v : loggerPlus) : Go unit :=
  update (fun g => mkWorld (Info g) (Trace g) (Warn g) v (previousIo g) (fresh g) (stream g)).
Definition setPreviousIo (c : option writer) : Go unit :=
  update (fun g => mkWorld (Info g) (Trace g) (Warn g) (Error g) c (fresh g) (stream g)).

(** Run a computation of the outside world on the world's stream. *)
Definition io {A : Type} (c : IO A) : Go A :=
  fun g =>
    let (a, seen) := runState c (stream g) in
    (Returned a,
     mkWorld (Info g) (Trace g) (Warn g) (Error g) (previousIo g) (fresh g) seen).

(** [w.(io.Closer)]: the assertion fails on the nil interface. *)
Definition asCloser (w : ioWriter) : option writer :=
  match w with
  | None => None
  | Some x => logger.asCloser x
  end.

Definition NewLoggerPlus (l : Logger) : Go loggerPlus :=
  fun g =>
    (Returned {| self := fresh g; logger := l |},
     mkWorld (Info g) (Trace g) (Warn g) (Error g) (previousIo g) (S (fresh g)) (stream g)).

Section Process.

Variable env : Env.

(** [l.Output]: the line is handed to [l.out.Write]; a method call on the
    nil interface panics. *)
Definition Output (l : Logger) (s : string) : Go error :=
  match out l with
  | None => panic
  | Some w => io (log.Output env (log.New w (prefix l) (flag l)) s)
  end.

(** [l.Println(v...)] of package log. *)
Definition logPrintln (l : Logger) (v : list value) : Go unit :=
  Output l (fmt.Sprintln v) ;; ret tt.

(** [l.Printf(format, v...)] of package log. *)
Definition logPrintf (l : Logger) (format : string) (v : list value)
  : Go unit :=
  Output l (fmt.Sprintf format v) ;; ret tt.

(** [format]: [ctx.Cid()] is called while the tag is built. *)
Definition format (ctx : Context) (a : list value) : Go (list value) :=
  match ctx with
  | given c => ret (logger.format env c a)
  | cidPanics => panic
  end.

Definition formatf (ctx : Context) (format : string) (a : list value)
  : Go (string * list value) :=
  match ctx with
  | given c => ret (logger.formatf env c format a)
  | cidPanics => panic
  end.

Definition doPrintln (v : loggerPlus) (args : list value) : Go unit :=
  prev <- read previousIo ;;
  match prev with
  | None =>
      err <- read Error ;;
      if same v err then
        io (fmt.Fprintf env Stdout colorRed []) ;;
        logPrintln (logger v) args ;;
        io (fmt.Fprintf env Stdout colorBlack []) ;;
        ret tt
      else
        wrn <- read Warn ;;
        if same v wrn then
          io (fmt.Fprintf env Stdout colorYellow []) ;;
          logPrintln (logger v) args ;;
          io (fmt.Fprintf env Stdout colorBlack []) ;;
          ret tt
        else
          logPrintln (logger v) args
  | Some _ =>
      logPrintln (logger v) args
  end.

Definition doPrintf (v : loggerPlus) (format : string) (args : list value)
  : Go unit :=
  prev <- read previousIo ;;
  match prev with
  | None =>
      err <- read Error ;;
      if same v err then
        io (fmt.Fprintf env Stdout colorRed []) ;;
        logPrintf (logger v) format args ;;
        io (fmt.Fprintf env Stdout colorBlack []) ;;
        ret tt
      else
        wrn <- read Warn ;;
        if same v wrn then
          io (fmt.Fprintf env Stdout colorYellow []) ;;
          logPrintf (logger v) format args ;;
          io (fmt.Fprintf env Stdout colorBlack []) ;;
          ret tt
        else
          logPrintf (logger v) format args
  | Some _ =>
      logPrintf (logger v) format args
  end.

(** Modelled from the spec: the [Println] method of [loggerPlus] is not in
    this file of the package.  Section 4.2, writeLine: resolve the tag,
    join it with the caller's arguments, and pass them to the channel's
    line-writing primitive. *)
Definition Println (v : loggerPlus) (ctx : Context) (a : list value)
  : Go unit :=
  args <- format ctx a ;; doPrintln v args.

(** Modelled from the spec: the [Printf] method of [loggerPlus] is not in
    this file of the package.  Section 4.2, writeFormatted: resolve the
    tag as a format and argument pair, then delegate to the formatted
    write. *)
Definition Printf (v : loggerPlus) (ctx : Context) (format : string)
  (a : list value) : Go unit :=
  fa <- formatf ctx format a ;; doPrintf v (fst fa) (snd fa).

Definition I (ctx : Context) (a : list value) : Go unit :=
  v <- read Info ;; Println v ctx a.
Definition If (ctx : Context) (format : string) (a : list value) : Go unit :=
  v <- read Info ;; Printf v ctx format a.
Definition T (ctx : Context) (a : list value) : Go unit :=
  v <- read Trace ;; Println v ctx a.
Definition Tf (ctx : Context) (format : string) (a : list value) : Go unit :=
  v <- read Trace ;; Printf v ctx format a.
Definition W (ctx : Context) (a : list value) : Go unit :=
  v <- read Warn ;; Println v ctx a.
Definition Wf (ctx : Context) (format : string) (a : list value) : Go unit :=
  v <- read Warn ;; Printf v ctx format a.
Definition E (ctx : Context) (a : list value) : Go unit :=
  v <- read Error ;; Println v ctx a.
Definition Ef (ctx : Context) (format : string) (a : list value) : Go unit :=
  v <- read Error ;; Printf v ctx format a.

Definition init : Go unit :=
  (v <- NewLoggerPlus (New (Some Discard) logInfoLabel stamp) ;; setInfo v) ;;
  (v <- NewLoggerPlus (New (Some Stdout) logTraceLabel stamp) ;; setTrace v) ;;
  (v <- NewLoggerPlus (New (Some Stdout) logWarnLabel stamp) ;; setWarn v) ;;
  (v <- NewLoggerPlus (New (Some Stdout) logErrorLabel stamp) ;; setError v).

Definition Switch (w : ioWriter) : Go unit :=
  (v <- NewLoggerPlus (New (Some Discard) logInfoLabel stamp) ;; setInfo v) ;;
  (v <- NewLoggerPlus (New w logTraceLabel stamp) ;; setTrace v) ;;
  (v <- NewLoggerPlus (New w logWarnLabel stamp) ;; setWarn v) ;;
  (v <- NewLoggerPlus (New w logErrorLabel stamp) ;; setError v) ;;
  match asCloser w with
  | Some c => setPreviousIo (Some c)
  | None => ret tt
  end.

Definition Close : Go error :=
  (v <- NewLoggerPlus (New (Some Discard) logInfoLabel stamp) ;; setInfo v) ;;
  (v <- NewLoggerPlus (New (Some Discard) logTraceLabel stamp) ;; setTrace v) ;;
  (v <- NewLoggerPlus (New (Some Discard) logWarnLabel stamp) ;; setWarn v) ;;
  (v <- NewLoggerPlus (New (Some Discard) logErrorLabel stamp) ;; setError v) ;;
  prev <- read previousIo ;;
  match prev with
  | Some c =>
      err <- io (CloseWriter env c) ;;
      setPreviousIo None ;;
      ret err
  | None => ret None
  end.

Definition emit (l : Level) : Context -> list value -> Go unit :=
  match l with
  | atInfo => I
  | atTrace => T
  | atWarn => W
  | atError => E
  end.

Definition emitf (l : Level) : Context -> string -> list value -> Go unit :=
  match l with
  | atInfo => If
  | atTrace => Tf
  | atWarn => Wf
  | atError => Ef
  end.

(** A call of [logger.call]: its writer is not nil and its context's
    [Cid()], if there is one, returns. *)
Definition perform (c : call) : Go unit :=
  match c with
  | Emit l ctx a => emit l (given ctx) a
  | Emitf l ctx format a => emitf l (given ctx) format a
  | DoSwitch w => Switch (Some w)
  | DoClose => Close ;; ret tt
  end.

Fixpoint run (cs : list call) : Go unit :=
  match cs with
  | [] => ret tt
  | c :: rest => perform c ;; run rest
  end.

End Process.

Definition nilLoggerPlus : loggerPlus :=
  {| self := 0; logger := New (Some Discard) "" 0 |}.

Definition zero : World :=
  mkWorld nilLoggerPlus nilLoggerPlus nilLoggerPlus nilLoggerPlus None 1 [].

Definition start : World := snd (init zero).

(** A world of [logger.World] seen here: every destination is a writer. *)
Definition liftLogger (l : log.Logger) : Logger :=
  New (Some (log.out l)) (log.prefix l) (log.flag l).

Definition liftPlus (v : logger.loggerPlus) : loggerPlus :=
  {| self := logger.self v; logger := liftLogger (logger.logger v) |}.

Definition lift (g : logger.World) : World :=
  mkWorld (liftPlus (logger.Info g)) (liftPlus (logger.Trace g))
          (liftPlus (logger.Warn g)) (liftPlus (logger.Error g))
          (logger.previousIo g) (logger.fresh g) (logger.stream g).

End nilable.

(* ===================================================================== *)
(** ** The library fragments on small inputs *)

Example fmt_Sprintf_pid : fmt.Sprintf "[%v] " [VInt 1234] = "[1234] ".
Proof. reflexivity. Qed.

Example fmt_Sprintf_mixed :
  fmt.Sprintf "%d%% of %s%v" [VInt (-5); VStr "x"] = "-5% of x%!v(MISSING)".
Proof. reflexivity. Qed.

Example fmt_Sprintln_two :
  fmt.Sprintln [VStr "[1] "; VStr "a"] = "[1]  a" ++ String newline "".
Proof. reflexivity. Qed.

Example log_itoa_pad : log.itoa 7 2 = "07".
Proof. reflexivity. Qed.

Example log_itoa_wide : log.itoa 123456 4 = "123456".
Proof. reflexivity. Qed.

Example start_is_default :
  log.out (logger (Info start)) = Discard
  /\ log.out (logger (Trace start)) = Stdout
  /\ log.out (logger (Warn start)) = Stdout
  /\ log.out (logger (Error start)) = Stdout
  /\ previousIo start = None.
Proof. repeat split. Qed.

(* ===================================================================== *)
(** ** Strings and line layouts *)

Lemma string_app_assoc (a b c : string) : (a ++ b) ++ c = a ++ (b ++ c).
Proof. induction a as [| x a IH]; cbn; [reflexivity | now rewrite IH]. Qed.

Lemma string_app_nil (a : string) : a ++ "" = a.
Proof. induction a as [| x a IH]; cbn; [reflexivity | now rewrite IH]. Qed.

Lemma isDigit_byte k : 0 <= k <= 9 -> layout.isDigit (byte (48 + k)) = true.
Proof.
  intros H.
  assert (K : k = 0 \/ k = 1 \/ k = 2 \/ k = 3 \/ k = 4 \/ k = 5 \/ k = 6
              \/ k = 7 \/ k = 8 \/ k = 9) by lia.
  repeat (destruct K as [-> | K]; [reflexivity |]). subst k. reflexivity.
Qed.

Lemma digits_snoc n (p : list layout.item) :
  (layout.digits (S n) ++ p = layout.digits n ++ layout.digit :: p)%list.
Proof.
  unfold layout.digits. induction n as [| n IH]; cbn in *; [reflexivity |].
  now rewrite IH.
Qed.

Lemma itoaLoop_follows room : forall i wid b p,
  (Z.to_nat wid <= room)%nat -> 1 <= wid -> 0 <= i < 10 ^ wid ->
  layout.follows (layout.digits (Z.to_nat wid) ++ p) (log.itoaLoop room i wid b)
  = layout.follows p b.
Proof.
  induction room as [| room IH]; intros i wid b p Hroom Hwid Hi.
  - lia.
  - cbn [log.itoaLoop].
    destruct ((i >=? 10) || (wid >? 1)) eqn:More.
    + assert (Hw : 2 <= wid).
      { destruct (Z.ltb_spec wid 2) as [Hlt | Hge]; [| exact Hge].
        assert (wid = 1) by lia. subst wid.
        apply orb_true_iff in More. destruct More as [M | M].
        * apply Z.geb_le in M. change (10 ^ 1) with 10 in Hi. lia.
        * apply Z.gtb_lt in M. lia. }
      rewrite Z.quot_div_nonneg by lia.
      replace (Z.to_nat wid) with (S (Z.to_nat (wid - 1))) by lia.
      rewrite digits_snoc.
      rewrite IH.
      * cbn [layout.follows].
        replace (48 + i - i / 10 * 10) with (48 + (i mod 10))
          by (rewrite (Z.mod_eq i 10) by lia; lia).
        rewrite isDigit_byte by (pose proof (Z.mod_pos_bound i 10); lia).
        reflexivity.
      * lia.
      * lia.
      * split; [apply Z.div_pos; lia |].
        apply Z.div_lt_upper_bound; [lia |].
        replace wid with (1 + (wid - 1)) in Hi by lia.
        rewrite Z.pow_add_r in Hi by lia. change (10 ^ 1) with 10 in Hi. lia.
    + apply orb_false_iff in More. destruct More as [M1 M2].
      assert (wid = 1) by (apply Z.gtb_ltb in M2 || idtac; lia).
      subst wid. change (layout.digits (Z.to_nat 1)) with [layout.digit].
      cbn [app layout.follows].
      rewrite isDigit_byte; [reflexivity |].
      destruct (Z.geb_spec i 10); [discriminate | lia].
Qed.

Lemma itoaLoop_app room : forall i wid b rest,
  log.itoaLoop room i wid b ++ rest = log.itoaLoop room i wid (b ++ rest).
Proof.
  induction room as [| room IH]; intros i wid b rest; cbn [log.itoaLoop].
  - reflexivity.
  - destruct ((i >=? 10) || (wid >? 1)); [apply IH | reflexivity].
Qed.

Lemma itoa_follows i wid p rest :
  1 <= wid <= 20 -> 0 <= i < 10 ^ wid ->
  layout.follows (layout.digits (Z.to_nat wid) ++ p) (log.itoa i wid ++ rest)
  = layout.follows p rest.
Proof.
  intros Hwid Hi. unfold log.itoa. rewrite itoaLoop_app.
  apply itoaLoop_follows; [lia | lia | exact Hi].
Qed.

Lemma text_follows t p rest :
  layout.follows (layout.text t ++ p) (t ++ rest) = layout.follows p rest.
Proof.
  induction t as [| c t IH]; cbn; [reflexivity |].
  now rewrite Ascii.eqb_refl, IH.
Qed.

Lemma stamp_follows l t p rest :
  log.flag l = stamp -> calendar t ->
  layout.follows (layout.text (log.prefix l) ++ layout.timestamp ++ layout.text " " ++ p)
                 (log.formatHeader l t ++ rest)
  = layout.follows p rest.
Proof.
  intros Hflag (Hy & Hm & Hd & Hh & Hmi & Hs & Hn).
  unfold log.formatHeader. rewrite Hflag. cbn -[log.itoa layout.text layout.follows String.append app layout.timestamp].
  unfold layout.timestamp.
  rewrite !string_app_assoc, ?string_app_nil, <- !app_assoc.
  rewrite text_follows.
  change (layout.digits 4) with (layout.digits (Z.to_nat 4)).
  change (layout.digits 2) with (layout.digits (Z.to_nat 2)).
  change (layout.digits 6) with (layout.digits (Z.to_nat 6)).
  assert (Hq : 0 <= Z.quot (nanosecond t) 1000 < 10 ^ 6).
  { rewrite Z.quot_div_nonneg by lia. split; [apply Z.div_pos; lia |].
    apply Z.div_lt_upper_bound; lia. }
  repeat first
    [ rewrite itoa_follows by (cbn; lia)
    | rewrite text_follows ].
  reflexivity.
Qed.

(* ===================================================================== *)
(** ** Single calls *)

(** Finish a goal about a run once the branch is known: [E] records the
    tracked closer. *)

Ltac settle E :=
  cbn; rewrite ?E, ?app_nil_r, <- ?app_assoc; try reflexivity.

Lemma Switch_run w g :
  runState (Switch w) g =
  (tt, rebound w (match asCloser w with Some c => Some c | None => previousIo g end) g).
Proof.
  unfold Switch. destruct w as [| | id []]; reflexivity.
Qed.

Lemma Close_run env g :
  runState (Close env) g =
  match previousIo g with
  | Some c => (closeResult env (stream g) c,
               withStream (rebound Discard None g) (stream g ++ [Closed c])%list)
  | None => (None, rebound Discard None g)
  end.
Proof.
  unfold Close. cbn. destruct (previousIo g); reflexivity.
Qed.

Lemma doPrintln_run env v args g :
  runState (doPrintln env v args) g =
  (tt, withStream g (stream g ++ written env v g (fmt.Sprintln args))%list).
Proof.
  unfold doPrintln, written, coloured, plain, withStream.
  cbn. destruct (previousIo g) eqn:E.
  - destruct (log.out (logger v)); settle E.
  - cbn. destruct (same v (Error g)).
    + destruct (log.out (logger v)); settle E.
    + cbn. destruct (same v (Warn g)); destruct (log.out (logger v)); settle E.
Qed.

Lemma doPrintf_run env v format args g :
  runState (doPrintf env v format args) g =
  (tt, withStream g (stream g ++ written env v g (fmt.Sprintf format args))%list).
Proof.
  unfold doPrintf, written, coloured, plain, withStream.
  cbn. destruct (previousIo g) eqn:E.
  - destruct (log.out (logger v)); settle E.
  - cbn. destruct (same v (Error g)).
    + destruct (log.out (logger v)); settle E.
    + cbn. destruct (same v (Warn g)); destruct (log.out (logger v)); settle E.
Qed.

Lemma emit_run env l ctx a g :
  runState (emit env l ctx a) g =
  (tt, withStream g (stream g ++ written env (channel l g) g (fmt.Sprintln (format env ctx a)))%list).
Proof.
  destruct l; unfold emit, I, T, W, E, Println; cbn [channel];
  rewrite <- doPrintln_run; reflexivity.
Qed.

Lemma emitf_run env l ctx f a g :
  runState (emitf env l ctx f a) g =
  (tt, withStream g (stream g ++ written env (channel l g) g
        (fmt.Sprintf (fst (formatf env ctx f a)) (snd (formatf env ctx f a))))%list).
Proof.
  destruct l; unfold emitf, If, Tf, Wf, Ef, Printf; cbn [channel];
  rewrite <- doPrintf_run; destruct (formatf env ctx f a); reflexivity.
Qed.

Lemma execState_bind {A B} (c : Go A) (k : Go B) g :
  execState (c ;; k) g = execState k (execState c g).
Proof. unfold execState. cbn. destruct (runState c g). reflexivity. Qed.

Lemma Switch_world w g :
  execState (Switch w) g
  = rebound w (match asCloser w with Some c => Some c | None => previousIo g end) g.
Proof. unfold execState. now rewrite Switch_run. Qed.

Lemma Close_world env g :
  execState (Close env) g =
  match previousIo g with
  | Some c => withStream (rebound Discard None g) (stream g ++ [Closed c])%list
  | None => rebound Discard None g
  end.
Proof. unfold execState. rewrite Close_run. destruct (previousIo g); reflexivity. Qed.

Lemma Close_result env g :
  evalState (Close env) g =
  match previousIo g with
  | Some c => closeResult env (stream g) c
  | None => None
  end.
Proof. unfold evalState. rewrite Close_run. destruct (previousIo g); reflexivity. Qed.

Lemma Close_tracks_nothing env g : previousIo (execState (Close env) g) = None.
Proof. rewrite Close_world. destruct (previousIo g); reflexivity. Qed.

Lemma Close_stream env g :
  stream (execState (Close env) g)
  = (stream g ++ match previousIo g with Some c => [Closed c] | None => [] end)%list.
Proof.
  rewrite Close_world. destruct (previousIo g); cbn; [reflexivity |].
  now rewrite app_nil_r.
Qed.

(* ===================================================================== *)
(** ** What a call adds to the stream *)

Lemma emitted_app {A} (c : Go A) g evs :
  stream (execState c g) = (stream g ++ evs)%list -> emitted c g = evs.
Proof.
  intros H. unfold emitted. rewrite H.
  rewrite skipn_app, skipn_all, Nat.sub_diag. reflexivity.
Qed.

Lemma stream_emit env l ctx a g :
  emitted (emit env l ctx a) g
  = written env (channel l g) g (fmt.Sprintln (format env ctx a)).
Proof.
  apply emitted_app. unfold execState. rewrite emit_run. reflexivity.
Qed.

Lemma stream_emitf env l ctx f a g :
  emitted (emitf env l ctx f a) g
  = written env (channel l g) g
      (fmt.Sprintf (fst (formatf env ctx f a)) (snd (formatf env ctx f a))).
Proof.
  apply emitted_app. unfold execState. rewrite emitf_run. reflexivity.
Qed.

Lemma Close_emitted env g :
  emitted (Close env) g =
  match previousIo g with
  | Some c => [Closed c]
  | None => []
  end.
Proof.
  apply emitted_app. rewrite Close_world.
  destruct (previousIo g); cbn; [reflexivity | now rewrite app_nil_r].
Qed.

Lemma Switch_emitted w g : emitted (Switch w) g = [].
Proof. apply emitted_app. rewrite Switch_world. cbn. now rewrite app_nil_r. Qed.

Lemma closes_stream env n : forall g,
  previousIo g = None -> stream (execState (closes env n) g) = stream g.
Proof.
  induction n as [| n IH]; intros g Hg; [reflexivity |].
  cbn [closes]. rewrite execState_bind, IH by apply Close_tracks_nothing.
  rewrite Close_stream, Hg. apply app_nil_r.
Qed.

Lemma closes_emitted env n g :
  emitted (closes env (S n)) g = emitted (Close env) g.
Proof.
  apply emitted_app. cbn [closes].
  rewrite execState_bind, closes_stream by apply Close_tracks_nothing.
  rewrite Close_stream, Close_emitted. reflexivity.
Qed.

Lemma written_only_writes env v g msg : released (written env v g msg) = [].
Proof.
  unfold written, coloured, plain, shown.
  destruct (previousIo g), (same v (Error g)), (same v (Warn g)),
    (log.out (logger v)); reflexivity.
Qed.

Lemma released_app (xs ys : list event) :
  released (xs ++ ys) = (released xs ++ released ys)%list.
Proof. unfold released. apply flat_map_app. Qed.

Lemma released_In w evs : In (Closed w) evs <-> In w (released evs).
Proof.
  unfold released. rewrite in_flat_map. split.
  - intros H. exists (Closed w). split; [exact H | now left].
  - intros (e & He & Hw). destruct e as [w' p | w']; cbn in Hw; [easy |].
    destruct Hw as [-> | []]. exact He.
Qed.

Lemma writer_eqb_eq a b : writer_eqb a b = true <-> a = b.
Proof.
  destruct a as [| | i c], b as [| | j d]; cbn; split; intros H;
    try reflexivity; try discriminate H.
  - apply andb_true_iff in H. destruct H as [Hi Hc].
    apply Nat.eqb_eq in Hi. apply Bool.eqb_prop in Hc. now subst.
  - inversion H; subst. now rewrite Nat.eqb_refl, Bool.eqb_reflx.
Qed.

Lemma writer_eqb_refl w : writer_eqb w w = true.
Proof.
  destruct w as [| | i c]; cbn; [reflexivity | reflexivity |].
  now rewrite Nat.eqb_refl, Bool.eqb_reflx.
Qed.

(* ===================================================================== *)
(** ** Sequences of calls *)

Lemma step_world env c g :
  step env g c =
  match c with
  | Emit l ctx a =>
      withStream g (stream g ++ written env (channel l g) g
                                  (fmt.Sprintln (format env ctx a)))%list
  | Emitf l ctx f a =>
      withStream g (stream g ++ written env (channel l g) g
          (fmt.Sprintf (fst (formatf env ctx f a)) (snd (formatf env ctx f a))))%list
  | DoSwitch w =>
      rebound w (match asCloser w with Some c => Some c | None => previousIo g end) g
  | DoClose =>
      match previousIo g with
      | Some c => withStream (rebound Discard None g) (stream g ++ [Closed c])%list
      | None => rebound Discard None g
      end
  end.
Proof.
  unfold step, execState. destruct c as [l ctx a | l ctx f a | w |]; cbn [perform].
  - now rewrite emit_run.
  - now rewrite emitf_run.
  - now rewrite Switch_run.
  - change (runState (Close env ;; ret tt) g)
      with (let (_, g') := runState (Close env) g in (tt, g')).
    rewrite Close_run. destruct (previousIo g); reflexivity.
Qed.

Lemma after_snoc env cs c :
  after env (cs ++ [c]) = step env (after env cs) c.
Proof. unfold after. now rewrite fold_left_app. Qed.

Lemma after_app env cs rest :
  after env (cs ++ rest) = fold_left (step env) rest (after env cs).
Proof. unfold after. now rewrite fold_left_app. Qed.

Lemma apart_rebound w held g : apart (rebound w held g) = true.
Proof.
  unfold apart, rebound, same. cbn [Info Trace Warn Error self].
  repeat match goal with
  | |- context [Nat.eqb ?a ?b] =>
      replace (Nat.eqb a b) with false by (symmetry; apply Nat.eqb_neq; lia)
  end.
  reflexivity.
Qed.

Lemma apart_step env c g : apart g = true -> apart (step env g c) = true.
Proof.
  intros H. rewrite step_world. destruct c as [l ctx a | l ctx f a | w |].
  - exact H.
  - exact H.
  - apply apart_rebound.
  - destruct (previousIo g); [| apply apart_rebound].
    exact (apart_rebound Discard None g).
Qed.

Lemma apart_after env cs : apart (after env cs) = true.
Proof.
  induction cs as [| c cs IH] using rev_ind.
  - reflexivity.
  - rewrite after_snoc. now apply apart_step.
Qed.

Lemma same_refl v : same v v = true.
Proof. apply Nat.eqb_refl. Qed.

Lemma written_channel env l g msg :
  apart g = true -> written env (channel l g) g msg = outcome env l g msg.
Proof.
  unfold apart, written, outcome. intros H.
  rewrite !andb_true_iff, !negb_true_iff in H.
  destruct H as ((((Hiw & Hie) & Htw) & Hte) & Hwe).
  destruct (previousIo g); [destruct l; reflexivity |].
  destruct l; cbn [channel].
  - now rewrite Hie, Hiw.
  - now rewrite Hte, Htw.
  - now rewrite Hwe, same_refl.
  - now rewrite same_refl.
Qed.

Lemma emit_outcome env l ctx a g :
  apart g = true ->
  emitted (emit env l ctx a) g = outcome env l g (fmt.Sprintln (format env ctx a)).
Proof. intros H. rewrite stream_emit. now apply written_channel. Qed.

Lemma emitf_outcome env l ctx f a g :
  apart g = true ->
  emitted (emitf env l ctx f a) g
  = outcome env l g
      (fmt.Sprintf (fst (formatf env ctx f a)) (snd (formatf env ctx f a))).
Proof. intros H. rewrite stream_emitf. now apply written_channel. Qed.

Lemma asCloser_Some w c : asCloser w = Some c -> c = w /\ asCloser c = Some c.
Proof.
  destruct w as [| | i []]; cbn; intros H; inversion H; subst; auto.
Qed.

Lemma installed_snoc cs c w : installed cs w -> installed (cs ++ [c]) w.
Proof. intros [H K]. split; [apply in_or_app; now left | exact K]. Qed.

Lemma tracked_was_installed env cs :
  (forall w, previousIo (after env cs) = Some w -> installed cs w)
  /\ (forall w, In w (released (stream (after env cs))) -> installed cs w).
Proof.
  induction cs as [| c cs [IHp IHr]] using rev_ind.
  - split; intros w H; [discriminate H | destruct H].
  - rewrite after_snoc, step_world.
    destruct c as [l ctx a | l ctx f a | x |].
    + split; intros w H; apply installed_snoc.
      * apply IHp. exact H.
      * cbn [stream withStream] in H.
        rewrite released_app, written_only_writes, app_nil_r in H. now apply IHr.
    + split; intros w H; apply installed_snoc.
      * apply IHp. exact H.
      * cbn [stream withStream] in H.
        rewrite released_app, written_only_writes, app_nil_r in H. now apply IHr.
    + split; intros w H.
      * cbn [previousIo rebound] in H.
        destruct (asCloser x) as [c |] eqn:Hx.
        -- inversion H; subst. apply asCloser_Some in Hx. destruct Hx as [-> Hc].
           split; [apply in_or_app; right; now left | exact Hc].
        -- apply installed_snoc. now apply IHp.
      * apply installed_snoc. apply IHr. exact H.
    + split; intros w H.
      * destruct (previousIo (after env cs)); discriminate H.
      * apply installed_snoc.
        destruct (previousIo (after env cs)) as [c |] eqn:Hc.
        -- cbn [stream withStream] in H. rewrite released_app in H.
           apply in_app_or in H. destruct H as [H | H]; [now apply IHr |].
           cbn in H. destruct H as [<- | []]. now apply IHp.
        -- apply IHr. exact H.
Qed.

Lemma tracked_fold env cs : forall g,
  previousIo (fold_left (step env) cs g) = tracked (previousIo g) cs.
Proof.
  induction cs as [| c cs IH]; intros g; [reflexivity |].
  cbn [fold_left tracked]. rewrite IH, step_world.
  destruct c as [l ctx a | l ctx f a | w |]; try reflexivity.
  destruct (previousIo g); reflexivity.
Qed.

Lemma previousIo_after env cs : previousIo (after env cs) = tracked None cs.
Proof. exact (tracked_fold env cs start). Qed.

Lemma tracked_app cs : forall held rest,
  tracked held (cs ++ rest) = tracked (tracked held cs) rest.
Proof.
  induction cs as [| c cs IH]; intros held rest; [reflexivity |].
  destruct c as [l ctx a | l ctx f a | w |]; cbn [app tracked]; apply IH.
Qed.

Lemma tracked_never_switched cs :
  forallb (fun c => negb (isSwitch c)) cs = true -> tracked None cs = None.
Proof.
  induction cs as [| c cs IH]; intros H; [reflexivity |].
  cbn [forallb] in H. apply andb_true_iff in H. destruct H as [Hc H].
  destruct c as [l ctx a | l ctx f a | w |]; cbn [tracked]; auto.
  discriminate Hc.
Qed.

Lemma tracked_never_closed rest : forall c,
  forallb (fun c => negb (isClose c)) rest = true ->
  tracked (Some c) rest <> None.
Proof.
  induction rest as [| x rest IH]; intros c H; [discriminate |].
  cbn [forallb] in H. apply andb_true_iff in H. destruct H as [Hx H].
  destruct x as [l ctx a | l ctx f a | w |]; cbn [tracked]; auto.
  - destruct (asCloser w); auto.
  - discriminate Hx.
Qed.

Lemma shut_step_Close env g : shut (step env g DoClose).
Proof.
  rewrite step_world. destruct (previousIo g); repeat split.
Qed.

Lemma shut_fold env rest : forall g,
  shut g -> forallb (fun c => negb (isSwitch c)) rest = true ->
  shut (fold_left (step env) rest g).
Proof.
  induction rest as [| c rest IH]; intros g Hg Hrest; [exact Hg |].
  cbn [forallb] in Hrest. apply andb_true_iff in Hrest.
  destruct Hrest as [Hc Hrest]. cbn [fold_left]. apply IH; [| exact Hrest].
  destruct c as [l ctx a | l ctx f a | w |].
  - rewrite step_world. exact Hg.
  - rewrite step_world. exact Hg.
  - discriminate Hc.
  - apply shut_step_Close.
Qed.

(* ===================================================================== *)
(** ** Written lines *)

Lemma endsWithNewline_snoc s : log.endsWithNewline (s ++ String newline "") = true.
Proof.
  induction s as [| c s IH]; [reflexivity |].
  cbn [String.append log.endsWithNewline].
  destruct (s ++ String newline "") eqn:E; [destruct s; discriminate E | exact IH].
Qed.

Lemma line_of_Sprintln l0 t a :
  log.line l0 t (fmt.Sprintln a) = log.formatHeader l0 t ++ fmt.Sprintln a.
Proof.
  unfold log.line, fmt.Sprintln. rewrite endsWithNewline_snoc.
  now rewrite string_app_nil.
Qed.

Lemma Sprintln_tagged tag a :
  fmt.Sprintln (VStr tag :: a)
  = tag ++ match a with
           | [] => String newline ""
           | _ :: _ => " " ++ fmt.Sprintln a
           end.
Proof.
  unfold fmt.Sprintln. destruct a as [| x a]; cbn [fmt.printlnOperands fmt.printValue].
  - reflexivity.
  - now rewrite !string_app_assoc.
Qed.

Lemma In_shown w p : w <> Discard -> In (Wrote w p) (shown w p).
Proof. destruct w; intros H; [now destruct H | now left | now left]. Qed.

Lemma outcome_has_the_line env l g msg :
  log.out (logger (channel l g)) <> Discard ->
  exists seen,
    In (Wrote (log.out (logger (channel l g)))
              (log.line (logger (channel l g)) (Now env seen) msg))
       (outcome env l g msg).
Proof.
  intros H. unfold outcome, coloured, plain.
  destruct (previousIo g); [exists (stream g); destruct l; now apply In_shown |].
  destruct l.
  - exists (stream g). now apply In_shown.
  - exists (stream g). now apply In_shown.
  - exists (stream g ++ [Wrote Stdout colorYellow])%list. right.
    apply in_or_app. left. now apply In_shown.
  - exists (stream g ++ [Wrote Stdout colorRed])%list. right.
    apply in_or_app. left. now apply In_shown.
Qed.

Lemma outcome_discarded env l g msg w p :
  log.out (logger (channel l g)) = Discard ->
  In (Wrote w p) (outcome env l g msg) -> w = Stdout /\ isColour p = true.
Proof.
  intros H. unfold outcome, coloured, plain. rewrite H. cbn [shown app].
  destruct (previousIo g); [destruct l; intros [] |].
  destruct l; cbn [In]; intros K;
    repeat match goal with
           | K : _ \/ _ |- _ => destruct K as [K | K]
           | K : False |- _ => destruct K
           | K : Wrote _ _ = Wrote _ _ |- _ => inversion K; subst; clear K
           end; split; reflexivity.
Qed.

(* ===================================================================== *)
(** ** Calls that may panic *)

Example nilable_start_is_start : nilable.start = nilable.lift start.
Proof. reflexivity. Qed.

Lemma doPrintln_lift env v args g :
  nilable.doPrintln env (nilable.liftPlus v) args (nilable.lift g)
  = (nilable.Returned tt,
     nilable.lift (withStream g (stream g ++ written env v g (fmt.Sprintln args))%list)).
Proof.
  unfold nilable.doPrintln, written, coloured, plain, withStream, nilable.lift,
    nilable.same, same.
  cbn. destruct (previousIo g) eqn:E.
  - destruct (log.out (logger v)); settle E.
  - destruct (Nat.eqb (self v) (self (Error g))) eqn:He;
      [| destruct (Nat.eqb (self v) (self (Warn g))) eqn:Hw];
      destruct (log.out (logger v));
      cbn; rewrite ?He; cbn; rewrite ?Hw; settle E.
Qed.

Lemma doPrintf_lift env v f args g :
  nilable.doPrintf env (nilable.liftPlus v) f args (nilable.lift g)
  = (nilable.Returned tt,
     nilable.lift (withStream g (stream g ++ written env v g (fmt.Sprintf f args))%list)).
Proof.
  unfold nilable.doPrintf, written, coloured, plain, withStream, nilable.lift,
    nilable.same, same.
  cbn. destruct (previousIo g) eqn:E.
  - destruct (log.out (logger v)); settle E.
  - destruct (Nat.eqb (self v) (self (Error g))) eqn:He;
      [| destruct (Nat.eqb (self v) (self (Warn g))) eqn:Hw];
      destruct (log.out (logger v));
      cbn; rewrite ?He; cbn; rewrite ?Hw; settle E.
Qed.

Lemma perform_lift env c g :
  nilable.perform env c (nilable.lift g)
  = (nilable.Returned tt, nilable.lift (step env g c)).
Proof.
  rewrite step_world. destruct c as [l ctx a | l ctx f a | w |].
  - destruct l; cbn [nilable.perform nilable.emit channel];
      unfold nilable.I, nilable.T, nilable.W, nilable.E, nilable.Println;
      cbn [bind ret nilable.Monad_Go nilable.read nilable.format];
      apply doPrintln_lift.
  - destruct l; cbn [nilable.perform nilable.emitf channel];
      unfold nilable.If, nilable.Tf, nilable.Wf, nilable.Ef, nilable.Printf;
      cbn [bind ret nilable.Monad_Go nilable.read nilable.formatf];
      apply doPrintf_lift.
  - cbn [nilable.perform]. unfold nilable.Switch. cbn.
    destruct w as [| | id []]; reflexivity.
  - cbn [nilable.perform]. unfold nilable.Close. cbn.
    destruct (previousIo g); reflexivity.
Qed.

Lemma run_lift env cs : forall g,
  nilable.run env cs (nilable.lift g)
  = (nilable.Returned tt, nilable.lift (fold_left (step env) cs g)).
Proof.
  induction cs as [| c cs IH]; intros g; [reflexivity |].
  cbn [nilable.run fold_left bind nilable.Monad_Go].
  rewrite perform_lift. apply IH.
Qed.

Lemma Close_lift env g :
  nilable.Close env (nilable.lift g)
  = (nilable.Returned (match previousIo g with
                       | Some c => closeResult env (stream g) c
                       | None => None
                       end),
     nilable.lift (execState (Close env) g)).
Proof.
  rewrite Close_world. unfold nilable.Close. cbn.
  destruct (previousIo g); reflexivity.
Qed.

Lemma step_answering env wr cr g c :
  step (answering env wr cr) g c = step env g c.
Proof.
  rewrite !step_world. destruct c as [l ctx a | l ctx f a | w |]; reflexivity.
Qed.

(* ===================================================================== *)
(** ** Properties of the package *)

(** C1. Tag resolution is a three-way rule on the context.  For the nil
    context [format] puts the text "[<pid>] " in front of the operands and
    [formatf] puts "[%v] " in front of the format and the process id in
    front of the operands.  For a context that implements [Cid() int] the
    text is "[<pid>][<cid>] ", the lead-in is "[%v][%v] " and the operands
    gain the process id and then the correlation id.  For any other
    context the operands and the format come back untouched. *)
Theorem format_three_way_rule env (f : string) (a : list value) :
  (format env nilContext a
   = VStr ("[" ++ fmt.fmtInteger (Getpid env) ++ "] ") :: a
   /\ formatf env nilContext f a = ("[%v] " ++ f, VInt (Getpid env) :: a))
  /\ (forall cid,
        format env (cidContext cid) a
        = VStr ("[" ++ fmt.fmtInteger (Getpid env) ++ "]["
                ++ fmt.fmtInteger cid ++ "] ") :: a
        /\ formatf env (cidContext cid) f a
           = ("[%v][%v] " ++ f, VInt (Getpid env) :: VInt cid :: a))
  /\ (forall shape,
        format env (otherContext shape) a = a
        /\ formatf env (otherContext shape) f a = (f, a)).
Proof.
  split; [split; reflexivity |].
  split; [intros cid | intros shape]; split; reflexivity.
Qed.

Example format_demo :
  format demo (cidContext 100) [VStr "hello"] = [VStr "[1234][100] "; VStr "hello"]
  /\ formatf demo (cidContext 100) "n=%d" [VInt 3]
     = ("[%v][%v] n=%d", [VInt 1234; VInt 100; VInt 3]).
Proof. split; reflexivity. Qed.

(** C2.  A Trace-level write with the nil context,
    process id 1234 and the message "hello", on the default console
    binding, is one write to standard output whose line opens with the
    severity label, followed by the date, the time with microseconds, the
    pid tag and the message, and ends with a newline:
    [\[trace\] \d{4}/\d{2}/\d{2} \d{2}:\d{2}:\d{2}\.\d{6} \[1234\]  hello].
    The tag's own trailing space and the separator that [Println] puts
    between operands give two spaces before the message. *)
Theorem trace_line_label_first env :
  Getpid env = 1234 -> calendar (Now env []) ->
  exists p,
    emitted (T env nilContext [VStr "hello"]) start = [Wrote Stdout p]
    /\ layout.follows (layout.labelThenStamp "[trace] " "[1234]  hello") p = true.
Proof.
  intros Hpid Hcal.
  change (T env) with (emit env atTrace). rewrite stream_emit.
  unfold written, plain, format. rewrite Hpid.
  cbn [start channel].
  eexists. split; [reflexivity |].
  unfold log.line, layout.labelThenStamp.
  change (layout.text "[trace] ")
    with (layout.text (log.prefix (logger (Trace start)))).
  change (stream start) with (@nil event).
  rewrite stamp_follows by (reflexivity || exact Hcal).
  reflexivity.
Qed.

(** The layout of C2 at the sample process. *)
Lemma trace_line_label_first_witness :
  Getpid demo = 1234 /\ calendar (Now demo []) /\
  exists p,
    emitted (T demo nilContext [VStr "hello"]) start = [Wrote Stdout p]
    /\ layout.follows (layout.labelThenStamp "[trace] " "[1234]  hello") p = true.
Proof.
  split; [reflexivity |].
  assert (C : calendar (Now demo [])) by (unfold calendar; cbn; lia).
  split; [exact C |].
  exact (trace_line_label_first demo eq_refl C).
Defined.

(** The layout with the timestamp ahead of the label and one space before
    the message does not describe the line the sample process writes. *)
Lemma trace_line_not_stamp_first :
  emitted (T demo nilContext [VStr "hello"]) start
  = [Wrote Stdout
       ("[trace] 2016/01/02 15:04:05.000123 [1234]  hello" ++ String newline "")]
  /\ layout.follows (layout.stampThenLabel "[trace] " "[1234] hello")
       ("[trace] 2016/01/02 15:04:05.000123 [1234]  hello" ++ String newline "")
     = false.
Proof. split; reflexivity. Qed.

(** C3.  After [Switch A] and then [Switch B], from any world: Info is
    bound to the discard writer and Trace, Warn and Error to [B]; the slot
    holds [B] if it can be released, else [A] if it can, else what it held
    before; the two switches add nothing to the stream, so nothing is
    released.  From then on an Info write adds nothing; a Trace write is
    the one line on [B]; a Warn or an Error write is the one line on [B]
    while a writer is tracked, and the same line between the colour and
    the reset code on standard output while none is.  No write releases
    anything, and none writes to [A] when [A] is another writer than
    [B]. *)
Theorem Switch_twice_exact_outcome env (A B : writer) (g : World)
  (l : Level) (ctx : Context) (f : string) (a : list value) :
  let g2 := execState (Switch A ;; Switch B) g in
  let msg := fmt.Sprintln (format env ctx a) in
  let msgf := fmt.Sprintf (fst (formatf env ctx f a)) (snd (formatf env ctx f a)) in
  let tr := log.New B logTraceLabel stamp in
  let wn := log.New B logWarnLabel stamp in
  let er := log.New B logErrorLabel stamp in
  (logger (Info g2) = log.New Discard logInfoLabel stamp
   /\ logger (Trace g2) = tr /\ logger (Warn g2) = wn /\ logger (Error g2) = er)
  /\ previousIo g2
     = match asCloser B, asCloser A with
       | Some c, _ => Some c
       | None, Some c => Some c
       | None, None => previousIo g
       end
  /\ emitted (Switch A ;; Switch B) g = []
  /\ (emitted (I env ctx a) g2 = [] /\ emitted (If env ctx f a) g2 = [])
  /\ (emitted (T env ctx a) g2 = plain env tr (stream g) msg
      /\ emitted (Tf env ctx f a) g2 = plain env tr (stream g) msgf)
  /\ match previousIo g2 with
     | Some _ =>
         (emitted (W env ctx a) g2 = plain env wn (stream g) msg
          /\ emitted (Wf env ctx f a) g2 = plain env wn (stream g) msgf)
         /\ (emitted (E env ctx a) g2 = plain env er (stream g) msg
             /\ emitted (Ef env ctx f a) g2 = plain env er (stream g) msgf)
     | None =>
         (emitted (W env ctx a) g2 = coloured env colorYellow wn (stream g) msg
          /\ emitted (Wf env ctx f a) g2
             = coloured env colorYellow wn (stream g) msgf)
         /\ (emitted (E env ctx a) g2 = coloured env colorRed er (stream g) msg
             /\ emitted (Ef env ctx f a) g2
                = coloured env colorRed er (stream g) msgf)
     end
  /\ (released (emitted (emit env l ctx a) g2) = []
      /\ released (emitted (emitf env l ctx f a) g2) = [])
  /\ (writer_eqb A B = false ->
      reaches A (emitted (emit env l ctx a) g2) = false
      /\ reaches A (emitted (emitf env l ctx f a) g2) = false).
Proof.
  intros g2 msg msgf tr wn er.
  assert (E2 : g2 = rebound B (match asCloser B, asCloser A with
                               | Some c, _ => Some c
                               | None, Some c => Some c
                               | None, None => previousIo g
                               end) (rebound A (match asCloser A with
                                         | Some c => Some c
                                         | None => previousIo g
                                         end) g)).
  { unfold g2. rewrite execState_bind, !Switch_world. cbn [previousIo rebound].
    destruct (asCloser B), (asCloser A); reflexivity. }
  assert (Hap : apart g2 = true) by (rewrite E2; apply apart_rebound).
  split; [rewrite E2; cbn; auto |].
  split; [rewrite E2; reflexivity |].
  split.
  { apply emitted_app. fold g2. rewrite E2. cbn. now rewrite app_nil_r. }
  change (I env) with (emit env atInfo). change (If env) with (emitf env atInfo).
  change (T env) with (emit env atTrace). change (Tf env) with (emitf env atTrace).
  change (W env) with (emit env atWarn). change (Wf env) with (emitf env atWarn).
  change (E env) with (emit env atError). change (Ef env) with (emitf env atError).
  rewrite !emit_outcome, !emitf_outcome by exact Hap.
  fold msg msgf. rewrite E2. unfold outcome. cbn [channel rebound previousIo Info Trace Warn Error logger stream].
  fold tr wn er.
  split.
  { unfold plain. cbn. destruct (asCloser B), (asCloser A), (previousIo g); split; reflexivity. }
  split.
  { destruct (asCloser B), (asCloser A), (previousIo g); split; reflexivity. }
  split.
  { destruct (asCloser B), (asCloser A), (previousIo g); repeat split. }
  split.
  { unfold coloured, plain, tr, wn, er.
    destruct l, B as [| | j []], A as [| | i []], (previousIo g); split; reflexivity. }
  intros Hne. unfold coloured, plain, tr, wn, er.
  destruct l, B as [| | j []], A as [| | i []], (previousIo g);
    cbn -[writer_eqb log.line fmt.Sprintln fmt.Sprintf];
    rewrite ?Hne; split; try reflexivity; try discriminate Hne.
Qed.

(** C3 at two sample sinks: a Warn write after both switches does not
    reach the first one. *)
Lemma Switch_twice_exact_outcome_witness :
  writer_eqb (Sink 1 false) (Sink 2 true) = false
  /\ reaches (Sink 1 false)
       (emitted (emit demo atWarn nilContext [VStr "x"])
          (execState (Switch (Sink 1 false) ;; Switch (Sink 2 true)) start))
     = false.
Proof.
  split; [reflexivity |].
  exact (proj1 (proj2 (proj2 (proj2 (proj2 (proj2 (proj2 (proj2
     (Switch_twice_exact_outcome demo (Sink 1 false) (Sink 2 true) start
        atWarn nilContext "" [VStr "x"]))))))) eq_refl)).
Defined.

(** After switches to two sinks that cannot be released, a Warn write
    reaches the second sink and standard output as well. *)
Lemma Warn_after_plain_switches_reaches_stdout :
  emitted (W demo nilContext [VStr "x"])
    (execState (Switch (Sink 1 false) ;; Switch (Sink 2 false)) start)
  = [Wrote Stdout colorYellow;
     Wrote (Sink 2 false)
       ("[warn] 2016/01/02 15:04:05.000123 [1234]  x" ++ String newline "");
     Wrote Stdout colorBlack]
  /\ reaches Stdout
       (emitted (W demo nilContext [VStr "x"])
          (execState (Switch (Sink 1 false) ;; Switch (Sink 2 false)) start))
     = true.
Proof. split; reflexivity. Qed.

(** C4. [Close] binds all four channels to the discard writer and empties
    the tracking slot.  If a writer was tracked it is released exactly
    once and [Close] returns what the release returned; if none was
    tracked nothing is released and [Close] returns no error.  A second
    [Close] right after is a no-op without error, and any number of calls
    in a row release what the first one released: at most one writer. *)
Theorem Close_releases_once env (g : World) (n : nat) :
  let g' := execState (Close env) g in
  (log.out (logger (Info g')) = Discard
   /\ log.out (logger (Trace g')) = Discard
   /\ log.out (logger (Warn g')) = Discard
   /\ log.out (logger (Error g')) = Discard)
  /\ previousIo g' = None
  /\ match previousIo g with
     | Some c =>
         evalState (Close env) g = closeResult env (stream g) c
         /\ emitted (Close env) g = [Closed c]
     | None =>
         evalState (Close env) g = None /\ emitted (Close env) g = []
     end
  /\ (evalState (Close env) g' = None /\ emitted (Close env) g' = [])
  /\ emitted (closes env (S n)) g = emitted (Close env) g
  /\ (List.length (released (emitted (closes env n) g)) <= 1)%nat.
Proof.
  intros g'.
  assert (Hg' : previousIo g' = None) by apply Close_tracks_nothing.
  split.
  { unfold g'. rewrite Close_world. destruct (previousIo g); cbn; auto. }
  split; [exact Hg' |].
  split.
  { rewrite Close_result, Close_emitted. destruct (previousIo g); auto. }
  split.
  { rewrite Close_result, Close_emitted, Hg'. auto. }
  split; [apply closes_emitted |].
  destruct n as [| n].
  - replace (emitted (closes env 0) g) with (@nil event);
      [cbn; lia | symmetry; apply emitted_app; cbn; now rewrite app_nil_r].
  - rewrite closes_emitted, Close_emitted. destruct (previousIo g); cbn; lia.
Qed.

(** C5.  In every world a client can reach, Error
    writes are bracketed by red and reset, and Warn writes by yellow and
    reset, on standard output exactly while no releasable writer is
    tracked; while one is tracked the write is the bare line.  No writer
    is tracked as long as [Switch] was never called, and one is tracked
    from a [Switch] to a releasable writer until the next [Close]. *)
Theorem colour_while_no_closer_is_tracked env (cs rest : list call)
  (w : writer) (ctx : Context) (f : string) (a : list value) :
  (let g := after env cs in
   let msg := fmt.Sprintln (format env ctx a) in
   let msgf := fmt.Sprintf (fst (formatf env ctx f a)) (snd (formatf env ctx f a)) in
   match previousIo g with
   | None =>
       emitted (E env ctx a) g = coloured env colorRed (logger (Error g)) (stream g) msg
       /\ emitted (Ef env ctx f a) g = coloured env colorRed (logger (Error g)) (stream g) msgf
       /\ emitted (W env ctx a) g = coloured env colorYellow (logger (Warn g)) (stream g) msg
       /\ emitted (Wf env ctx f a) g = coloured env colorYellow (logger (Warn g)) (stream g) msgf
   | Some _ =>
       emitted (E env ctx a) g = plain env (logger (Error g)) (stream g) msg
       /\ emitted (Ef env ctx f a) g = plain env (logger (Error g)) (stream g) msgf
       /\ emitted (W env ctx a) g = plain env (logger (Warn g)) (stream g) msg
       /\ emitted (Wf env ctx f a) g = plain env (logger (Warn g)) (stream g) msgf
   end)
  /\ (forallb (fun c => negb (isSwitch c)) cs = true ->
      previousIo (after env cs) = None)
  /\ (asCloser w = Some w ->
      forallb (fun c => negb (isClose c)) rest = true ->
      previousIo (after env (cs ++ DoSwitch w :: rest)) <> None).
Proof.
  split.
  - intros g msg msgf.
    assert (Hap : apart g = true) by apply apart_after.
    change (W env) with (emit env atWarn). change (Wf env) with (emitf env atWarn).
    change (E env) with (emit env atError). change (Ef env) with (emitf env atError).
    rewrite !emit_outcome, !emitf_outcome by exact Hap.
    unfold outcome. cbn [channel].
    destruct (previousIo g); repeat split.
  - split.
    + intros H. rewrite previousIo_after. now apply tracked_never_switched.
    + intros Hw Hrest. rewrite previousIo_after, tracked_app.
      cbn [tracked]. rewrite Hw. now apply tracked_never_closed.
Qed.

(** C5 at the sample process: nothing tracked before any switch, and a
    tracked standard output survives a later switch to a plain sink. *)
Lemma colour_while_no_closer_is_tracked_witness :
  (forallb (fun c => negb (isSwitch c)) [DoClose] = true
   /\ previousIo (after demo [DoClose]) = None)
  /\ (asCloser Stdout = Some Stdout
      /\ forallb (fun c => negb (isClose c)) [DoSwitch (Sink 1 false)] = true
      /\ previousIo (after demo ([] ++ DoSwitch Stdout :: [DoSwitch (Sink 1 false)]))
         <> None).
Proof.
  split.
  - split; [reflexivity |].
    exact (proj1 (proj2 (colour_while_no_closer_is_tracked demo [DoClose] []
                           Stdout nilContext "" [])) eq_refl).
  - split; [reflexivity |]. split; [reflexivity |].
    exact (proj2 (proj2 (colour_while_no_closer_is_tracked demo []
                           [DoSwitch (Sink 1 false)] Stdout nilContext "" []))
             eq_refl eq_refl).
Defined.

(** After a switch to a writer that cannot be released the Warn line goes
    to the sink and the colour codes still go to standard output. *)
Lemma colour_survives_Switch_to_plain_writer :
  emitted (W demo nilContext [VStr "x"]) (after demo [DoSwitch (Sink 1 false)])
  = [Wrote Stdout colorYellow;
     Wrote (Sink 1 false)
       ("[warn] 2016/01/02 15:04:05.000123 [1234]  x" ++ String newline "");
     Wrote Stdout colorBlack].
Proof. reflexivity. Qed.

(** C6. In every world a client can reach: the tracked writer, if any,
    was handed to [Switch] and can be released; a [Switch] to a releasable
    writer makes it the tracked one, whatever was tracked before; a
    [Switch] adds nothing to the stream; no write releases anything;
    [Close] releases the tracked writer and nothing else; and every writer
    ever released was installed by a [Switch]. *)
Theorem tracked_sink_released_only_by_Close env (cs : list call) :
  let g := after env cs in
  (forall w, previousIo g = Some w -> In (DoSwitch w) cs /\ asCloser w = Some w)
  /\ (forall w c, asCloser w = Some c ->
        previousIo (execState (Switch w) g) = Some c)
  /\ (forall w, emitted (Switch w) g = [])
  /\ (forall l ctx f a,
        released (emitted (emit env l ctx a) g) = []
        /\ released (emitted (emitf env l ctx f a) g) = [])
  /\ released (emitted (Close env) g)
     = match previousIo g with Some c => [c] | None => [] end
  /\ (forall w, In (Closed w) (stream g) ->
        In (DoSwitch w) cs /\ asCloser w = Some w).
Proof.
  intros g. destruct (tracked_was_installed env cs) as [Hp Hr].
  split; [exact Hp |].
  split.
  { intros w c Hc. rewrite Switch_world, Hc. reflexivity. }
  split; [intros w; apply Switch_emitted |].
  split.
  { intros l ctx f a. rewrite stream_emit, stream_emitf.
    split; apply written_only_writes. }
  split.
  { rewrite Close_emitted. destruct (previousIo g); reflexivity. }
  intros w H. apply Hr. now apply released_In.
Qed.

(** C6 at the sample process after one switch to a releasable sink. *)
Lemma tracked_sink_released_only_by_Close_witness :
  previousIo (after demo [DoSwitch (Sink 1 true)]) = Some (Sink 1 true)
  /\ In (DoSwitch (Sink 1 true)) [DoSwitch (Sink 1 true)]
  /\ asCloser (Sink 1 true) = Some (Sink 1 true).
Proof.
  split; [reflexivity |].
  exact (proj1 (tracked_sink_released_only_by_Close demo [DoSwitch (Sink 1 true)])
           (Sink 1 true) eq_refl).
Defined.

(** C7.  In every world a client can reach and at every level: the
    events of a write are those of the channel on the text made of the
    tag "[<pid>] " and the operands for the nil context, and on the
    operands alone for a context that is present without correlation id.
    Where the level's destination is not the discard writer, the line
    written there is the header, then "[<pid>] " as the only tag, then the
    operands (nil context), or the header and then the operands (context
    without correlation id).  Where the destination is the discard writer
    no line is written: whatever a write sends is a colour code on
    standard output. *)
Theorem pid_tag_heads_the_written_line env (cs : list call) (l : Level)
  (shape : nat) (f : string) (a : list value) :
  let g := after env cs in
  let l0 := logger (channel l g) in
  let tag := "[" ++ fmt.fmtInteger (Getpid env) ++ "] " in
  ((emitted (emit env l nilContext a) g
    = outcome env l g (fmt.Sprintln (VStr tag :: a))
    /\ emitted (emit env l (otherContext shape) a) g
       = outcome env l g (fmt.Sprintln a))
   /\ (emitted (emitf env l nilContext f a) g
       = outcome env l g (fmt.Sprintf ("[%v] " ++ f) (VInt (Getpid env) :: a))
       /\ emitted (emitf env l (otherContext shape) f a) g
          = outcome env l g (fmt.Sprintf f a)))
  /\ (log.out l0 <> Discard ->
      (exists seen,
         In (Wrote (log.out l0)
               (log.formatHeader l0 (Now env seen) ++ tag
                ++ match a with
                   | [] => String newline ""
                   | _ :: _ => " " ++ fmt.Sprintln a
                   end))
            (emitted (emit env l nilContext a) g))
      /\ (exists seen,
            In (Wrote (log.out l0)
                  (log.formatHeader l0 (Now env seen) ++ fmt.Sprintln a))
               (emitted (emit env l (otherContext shape) a) g)))
  /\ (log.out l0 = Discard ->
      forall ctx w p,
        In (Wrote w p) (emitted (emit env l ctx a) g) ->
        w = Stdout /\ isColour p = true).
Proof.
  intros g l0 tag.
  assert (Hap : apart g = true) by apply apart_after.
  rewrite !emit_outcome, !emitf_outcome by exact Hap.
  split; [repeat split |].
  split.
  - intros Hout. split.
    + destruct (outcome_has_the_line env l g
                  (fmt.Sprintln (format env nilContext a)) Hout) as [seen K].
      exists seen. rewrite <- Sprintln_tagged.
      change (VStr tag :: a) with (format env nilContext a).
      rewrite <- line_of_Sprintln. exact K.
    + destruct (outcome_has_the_line env l g
                  (fmt.Sprintln (format env (otherContext shape) a)) Hout)
        as [seen K].
      exists seen. rewrite <- line_of_Sprintln. exact K.
  - intros Hout ctx w p K. rewrite emit_outcome in K by exact Hap.
    eapply outcome_discarded; [exact Hout | exact K].
Qed.

(** C7 at the sample process: a Warn line on a releasable sink. *)
Lemma pid_tag_heads_the_written_line_witness :
  log.out (logger (channel atWarn (after demo [DoSwitch (Sink 1 true)]))) <> Discard
  /\ exists seen,
       In (Wrote (log.out (logger (channel atWarn (after demo [DoSwitch (Sink 1 true)]))))
             (log.formatHeader
                (logger (channel atWarn (after demo [DoSwitch (Sink 1 true)])))
                (Now demo seen)
              ++ ("[" ++ fmt.fmtInteger (Getpid demo) ++ "] ")
              ++ " " ++ fmt.Sprintln [VStr "x"]))
          (emitted (emit demo atWarn nilContext [VStr "x"])
             (after demo [DoSwitch (Sink 1 true)])).
Proof.
  assert (H : log.out (logger (channel atWarn (after demo [DoSwitch (Sink 1 true)])))
              <> Discard) by discriminate.
  split; [exact H |].
  exact (proj1 (proj1 (proj2 (pid_tag_heads_the_written_line demo
                  [DoSwitch (Sink 1 true)] atWarn 0 "" [VStr "x"])) H)).
Defined.

(** For a context that is present but has no correlation id the Trace
    line of the sample process has no pid tag. *)
Lemma other_context_gets_no_pid_tag :
  emitted (T demo (otherContext 0) [VStr "hello"]) start
  = [Wrote Stdout ("[trace] 2016/01/02 15:04:05.000123 hello" ++ String newline "")]
  /\ layout.occurs "[1234] "
       ("[trace] 2016/01/02 15:04:05.000123 hello" ++ String newline "") = false.
Proof. split; reflexivity. Qed.



(** C9. The tracking slot holds the writer of the most recent [Switch]
    that could be released since the last [Close].  A [Switch] to a writer
    that cannot be released leaves the slot as it was; and after
    [Switch w1], [Switch w2], where only [w2] can be released, [Close]
    releases [w2] and nothing else. *)
Theorem Close_releases_most_recent_closer env (cs : list call) (g : World)
  (w1 w2 : writer) :
  previousIo (after env cs) = tracked None cs
  /\ (asCloser w1 = None ->
      previousIo (execState (Switch w1) g) = previousIo g)
  /\ (asCloser w1 = None -> asCloser w2 = Some w2 ->
      emitted (Close env) (execState (Switch w1 ;; Switch w2) g) = [Closed w2]).
Proof.
  split; [apply (tracked_fold env cs start) |].
  split.
  - intros H1. rewrite Switch_world, H1. reflexivity.
  - intros H1 H2. rewrite Close_emitted, execState_bind, !Switch_world, H2.
    reflexivity.
Qed.

(** C9 at two sample sinks. *)
Lemma Close_releases_most_recent_closer_witness :
  asCloser (Sink 1 false) = None
  /\ asCloser (Sink 2 true) = Some (Sink 2 true)
  /\ emitted (Close demo)
       (execState (Switch (Sink 1 false) ;; Switch (Sink 2 true)) start)
     = [Closed (Sink 2 true)].
Proof.
  split; [reflexivity |]. split; [reflexivity |].
  exact (proj2 (proj2 (Close_releases_most_recent_closer demo [] start
                         (Sink 1 false) (Sink 2 true))) eq_refl eq_refl).
Defined.

(** C10. After a [Close], and as long as no [Switch] follows, Warn and
    Error are bound to the discard writer and no writer is tracked, so a
    Warn write adds exactly the yellow and the reset codes to standard
    output, and an Error write exactly the red and the reset codes, while
    the line itself is discarded. *)
Theorem colours_resume_after_Close env (cs rest : list call)
  (ctx : Context) (f : string) (a : list value) :
  forallb (fun c => negb (isSwitch c)) rest = true ->
  let g := after env (cs ++ DoClose :: rest) in
  previousIo g = None
  /\ (log.out (logger (Warn g)) = Discard /\ log.out (logger (Error g)) = Discard)
  /\ (emitted (W env ctx a) g = [Wrote Stdout colorYellow; Wrote Stdout colorBlack]
      /\ emitted (Wf env ctx f a) g = [Wrote Stdout colorYellow; Wrote Stdout colorBlack])
  /\ (emitted (E env ctx a) g = [Wrote Stdout colorRed; Wrote Stdout colorBlack]
      /\ emitted (Ef env ctx f a) g = [Wrote Stdout colorRed; Wrote Stdout colorBlack]).
Proof.
  intros Hrest g.
  assert (Hshut : shut g).
  { unfold g. rewrite after_app. cbn [fold_left].
    apply shut_fold; [apply shut_step_Close | exact Hrest]. }
  assert (Hap : apart g = true) by apply apart_after.
  destruct Hshut as (Hp & _ & _ & Hw & He).
  split; [exact Hp |]. split; [now split |].
  change (W env) with (emit env atWarn). change (Wf env) with (emitf env atWarn).
  change (E env) with (emit env atError). change (Ef env) with (emitf env atError).
  rewrite !emit_outcome, !emitf_outcome by exact Hap.
  unfold outcome, coloured, plain. cbn [channel]. rewrite Hp, Hw, He.
  repeat split.
Qed.

(** C10 at the sample process: switch, close, an Info write, then an
    Error write. *)
Lemma colours_resume_after_Close_witness :
  forallb (fun c => negb (isSwitch c)) [Emit atInfo nilContext []] = true
  /\ emitted (E demo nilContext [VStr "x"])
       (after demo ([DoSwitch (Sink 1 true)] ++ DoClose :: [Emit atInfo nilContext []]))
     = [Wrote Stdout colorRed; Wrote Stdout colorBlack].
Proof.
  split; [reflexivity |].
  exact (proj1 (proj2 (proj2 (proj2
     (colours_resume_after_Close demo [DoSwitch (Sink 1 true)]
        [Emit atInfo nilContext []] nilContext "" [VStr "x"] eq_refl))))).
Defined.

(* ===================================================================== *)
(** ** Invariants of the package variables *)

Lemma housed_rebound w held g : housed (rebound w held g).
Proof. unfold housed, rebound. cbn. lia. Qed.

Lemma housed_step env c g : housed g -> housed (step env g c).
Proof.
  intros H. rewrite step_world. destruct c as [l ctx a | l ctx f a | w |].
  - exact H.
  - exact H.
  - apply housed_rebound.
  - destruct (previousIo g); [| apply housed_rebound].
    exact (housed_rebound Discard None g).
Qed.

Lemma housed_after env cs : housed (after env cs).
Proof.
  induction cs as [| c cs IH] using rev_ind.
  - unfold housed. cbn. lia.
  - rewrite after_snoc. now apply housed_step.
Qed.

Lemma labelled_rebound w held g : labelled (rebound w held g).
Proof. intros l. destruct l; split; reflexivity. Qed.

Lemma labelled_withStream g seen : labelled g -> labelled (withStream g seen).
Proof.
  intros H l.
  destruct l; [exact (H atInfo) | exact (H atTrace) | exact (H atWarn)
              | exact (H atError)].
Qed.

Lemma labelled_step env c g : labelled g -> labelled (step env g c).
Proof.
  intros H. rewrite step_world. destruct c as [l ctx a | l ctx f a | w |].
  - now apply labelled_withStream.
  - now apply labelled_withStream.
  - apply labelled_rebound.
  - destruct (previousIo g); [| apply labelled_rebound].
    apply labelled_withStream, labelled_rebound.
Qed.

Lemma labelled_after env cs : labelled (after env cs).
Proof.
  induction cs as [| c cs IH] using rev_ind.
  - intros l. destruct l; split; reflexivity.
  - rewrite after_snoc. now apply labelled_step.
Qed.

Lemma Info_discards_step env c g :
  log.out (logger (Info g)) = Discard ->
  log.out (logger (Info (step env g c))) = Discard.
Proof.
  intros H. rewrite step_world. destruct c as [l ctx a | l ctx f a | w |].
  - exact H.
  - exact H.
  - reflexivity.
  - destruct (previousIo g); reflexivity.
Qed.

Lemma Info_discards_after env cs :
  log.out (logger (Info (after env cs))) = Discard.
Proof.
  induction cs as [| c cs IH] using rev_ind.
  - reflexivity.
  - rewrite after_snoc. now apply Info_discards_step.
Qed.

Lemma channel_outcome env l args g :
  apart g = true ->
  emitted (doPrintln env (channel l g) args) g
  = outcome env l g (fmt.Sprintln args).
Proof.
  intros H. apply emitted_app. unfold execState. rewrite doPrintln_run.
  cbn [snd stream withStream]. now rewrite written_channel.
Qed.

Lemma channel_outcomef env l f args g :
  apart g = true ->
  emitted (doPrintf env (channel l g) f args) g
  = outcome env l g (fmt.Sprintf f args).
Proof.
  intros H. apply emitted_app. unfold execState. rewrite doPrintf_run.
  cbn [snd stream withStream]. now rewrite written_channel.
Qed.

(* ===================================================================== *)
(** ** Handles on loggers *)

Lemma foreign_step env n c g : foreign n g -> foreign n (step env g c).
Proof.
  intros (Hn & He & Hw). rewrite step_world. unfold foreign.
  destruct c as [l ctx a | l ctx f a | w |]; cbn.
  - auto.
  - auto.
  - lia.
  - destruct (previousIo g); cbn; lia.
Qed.

Lemma foreign_fold env n rest : forall g,
  foreign n g -> foreign n (fold_left (step env) rest g).
Proof.
  induction rest as [| c rest IH]; intros g H; [exact H |].
  cbn [fold_left]. apply IH. now apply foreign_step.
Qed.

Lemma written_foreign env v g msg :
  foreign (self v) g -> written env v g msg = plain env (logger v) (stream g) msg.
Proof.
  intros (_ & He & Hw). unfold written, same.
  destruct (previousIo g); [reflexivity |].
  replace (Nat.eqb (self v) (self (Error g))) with false
    by (symmetry; apply Nat.eqb_neq; congruence).
  replace (Nat.eqb (self v) (self (Warn g))) with false
    by (symmetry; apply Nat.eqb_neq; congruence).
  reflexivity.
Qed.

Lemma stream_doPrintln env v args g :
  emitted (doPrintln env v args) g = written env v g (fmt.Sprintln args).
Proof. apply emitted_app. unfold execState. now rewrite doPrintln_run. Qed.

Lemma stream_doPrintf env v f args g :
  emitted (doPrintf env v f args) g = written env v g (fmt.Sprintf f args).
Proof. apply emitted_app. unfold execState. now rewrite doPrintf_run. Qed.

Lemma foreign_rebinding env c g n :
  isSwitch c || isClose c = true ->
  (n < fresh g)%nat -> foreign n (step env g c).
Proof.
  intros Hc Hn. rewrite step_world. unfold foreign.
  destruct c as [l ctx a | l ctx f a | w |]; try discriminate Hc; cbn.
  - lia.
  - destruct (previousIo g); cbn; lia.
Qed.

(* ===================================================================== *)
(** ** Lines and releases *)

Lemma format_tag env ctx a :
  (forall shape, ctx <> otherContext shape) ->
  format env ctx a = VStr (tagText env ctx) :: a.
Proof.
  intros Hctx. destruct ctx as [| cid | shape].
  - reflexivity.
  - reflexivity.
  - now destruct (Hctx shape).
Qed.

Lemma line_follows (l0 : log.Logger) (l : Level) (t : Time) (msg : string) :
  log.prefix l0 = label l -> log.flag l0 = stamp -> calendar t ->
  layout.follows (lineLayout l msg) (log.line l0 t msg) = true.
Proof.
  intros Hp Hf Hc. unfold lineLayout, log.line. rewrite <- Hp.
  rewrite stamp_follows by assumption.
  rewrite text_follows.
  destruct (log.endsWithNewline msg); reflexivity.
Qed.

Lemma In_plain env l0 seen msg w p :
  In (Wrote w p) (plain env l0 seen msg) ->
  w = log.out l0 /\ p = log.line l0 (Now env seen) msg.
Proof.
  unfold plain, shown. destruct (log.out l0); cbn; intros H;
    [destruct H | | ]; destruct H as [H | []]; inversion H; auto.
Qed.

Lemma In_coloured env c l0 seen msg w p :
  In (Wrote w p) (coloured env c l0 seen msg) ->
  (w = Stdout /\ (p = c \/ p = colorBlack))
  \/ (w = log.out l0
      /\ p = log.line l0 (Now env (seen ++ [Wrote Stdout c])) msg).
Proof.
  unfold coloured. intros [H | H].
  - inversion H; subst. left. auto.
  - apply in_app_or in H. destruct H as [H | H].
    + right. now apply In_plain in H.
    + destruct H as [H | []]. inversion H; subst. left. auto.
Qed.

Lemma In_outcome env l g msg w p :
  labelled g -> (forall seen, calendar (Now env seen)) ->
  In (Wrote w p) (outcome env l g msg) ->
  (w = Stdout /\ isColour p = true)
  \/ (w = log.out (logger (channel l g))
      /\ layout.follows (lineLayout l msg) p = true).
Proof.
  intros Hl Hc H. destruct (Hl l) as [Hp Hf].
  assert (Plain : forall seen,
            In (Wrote w p) (plain env (logger (channel l g)) seen msg) ->
            w = log.out (logger (channel l g))
            /\ layout.follows (lineLayout l msg) p = true).
  { intros seen K. apply In_plain in K. destruct K as [-> ->].
    split; [reflexivity | now apply line_follows]. }
  assert (Col : forall c seen, isColour c = true ->
            In (Wrote w p) (coloured env c (logger (channel l g)) seen msg) ->
            (w = Stdout /\ isColour p = true)
            \/ (w = log.out (logger (channel l g))
                /\ layout.follows (lineLayout l msg) p = true)).
  { intros c seen Hcol K. apply In_coloured in K.
    destruct K as [[-> [-> | ->]] | [-> ->]].
    - left. auto.
    - left. auto.
    - right. split; [reflexivity | now apply line_follows]. }
  unfold outcome in H.
  destruct (previousIo g); [right; destruct l; now apply (Plain (stream g)) |].
  destruct l.
  - right. now apply (Plain (stream g)).
  - right. now apply (Plain (stream g)).
  - now apply (Col colorYellow (stream g)).
  - now apply (Col colorRed (stream g)).
Qed.

Lemma stream_step env c g :
  stream (step env g c)
  = (stream g ++ since g (step env g c))%list
  /\ released (since g (step env g c))
     = match c, previousIo g with
       | DoClose, Some x => [x]
       | _, _ => []
       end.
Proof.
  assert (K : forall evs, stream (step env g c) = (stream g ++ evs)%list ->
              since g (step env g c) = evs).
  { intros evs E. unfold since. rewrite E.
    now rewrite skipn_app, skipn_all, Nat.sub_diag. }
  rewrite step_world. rewrite step_world in K.
  destruct c as [l ctx a | l ctx f a | w |].
  - rewrite (K _ eq_refl). split; [reflexivity | apply written_only_writes].
  - rewrite (K _ eq_refl). split; [reflexivity | apply written_only_writes].
  - rewrite (K [] (eq_sym (app_nil_r _))). split; [now rewrite app_nil_r |].
    destruct (previousIo g); reflexivity.
  - destruct (previousIo g) as [x |].
    + rewrite (K _ eq_refl). split; reflexivity.
    + rewrite (K [] (eq_sym (app_nil_r _))). split; [now rewrite app_nil_r |].
      reflexivity.
Qed.

Lemma since_trans g g1 g2 :
  stream g1 = (stream g ++ since g g1)%list ->
  stream g2 = (stream g1 ++ since g1 g2)%list ->
  stream g2 = (stream g ++ since g g2)%list
  /\ since g g2 = (since g g1 ++ since g1 g2)%list.
Proof.
  intros E1 E2.
  assert (E : stream g2 = (stream g ++ since g g1 ++ since g1 g2)%list)
    by (rewrite E2, E1 at 1; now rewrite <- app_assoc).
  assert (S : since g g2 = (since g g1 ++ since g1 g2)%list).
  { unfold since at 1. rewrite E.
    now rewrite skipn_app, skipn_all, Nat.sub_diag. }
  split; [now rewrite S | exact S].
Qed.

Lemma untracked_is_not_released env w rest : forall g,
  previousIo g <> Some w ->
  forallb (fun c => negb (isSwitchOf w c)) rest = true ->
  stream (fold_left (step env) rest g)
  = (stream g ++ since g (fold_left (step env) rest g))%list
  /\ ~ In w (released (since g (fold_left (step env) rest g))).
Proof.
  induction rest as [| c rest IH]; intros g Hg Hrest.
  - cbn [fold_left]. unfold since. rewrite skipn_all, app_nil_r. auto.
  - cbn [forallb] in Hrest. apply andb_true_iff in Hrest.
    destruct Hrest as [Hc Hrest]. cbn [fold_left].
    destruct (stream_step env c g) as [E1 R1].
    assert (Hg1 : previousIo (step env g c) <> Some w).
    { rewrite step_world. destruct c as [l ctx a | l ctx f a | x |].
      - exact Hg.
      - exact Hg.
      - cbn [previousIo rebound]. destruct (asCloser x) as [y |] eqn:Hx.
        + apply asCloser_Some in Hx. destruct Hx as [-> _].
          intros K. inversion K; subst.
          cbn [isSwitchOf] in Hc. now rewrite writer_eqb_refl in Hc.
        + exact Hg.
      - destruct (previousIo g); discriminate. }
    destruct (IH (step env g c) Hg1 Hrest) as [E2 R2].
    destruct (since_trans g _ _ E1 E2) as [E S].
    split; [exact E |].
    rewrite S, released_app, R1. intros K. apply in_app_or in K.
    destruct K as [K | K]; [| now apply R2].
    destruct c as [l ctx a | l ctx f a | x |]; try (now destruct K).
    destruct (previousIo g) as [y |]; [| now destruct K].
    destruct K as [-> | []]. now apply Hg.
Qed.

Lemma times_app w xs ys : times w (xs ++ ys) = (times w xs + times w ys)%nat.
Proof. unfold times. now rewrite filter_app, length_app. Qed.

Lemma installs_snoc w cs c :
  installs w (cs ++ [c])
  = (installs w cs + if isSwitchOf w c then 1 else 0)%nat.
Proof.
  unfold installs. rewrite filter_app, length_app. cbn [filter].
  destruct (isSwitchOf w c); reflexivity.
Qed.

Lemma releases_bounded env w cs :
  (times w (released (stream (after env cs))) + owed w (after env cs)
   <= installs w cs)%nat.
Proof.
  induction cs as [| c cs IH] using rev_ind.
  - cbn. lia.
  - rewrite after_snoc, installs_snoc.
    destruct (stream_step env c (after env cs)) as [E R].
    rewrite E, released_app, times_app, R.
    set (g := after env cs) in *.
    assert (O : owed w (step env g c)
                = match c with
                  | DoSwitch x =>
                      match asCloser x with
                      | Some y => if writer_eqb w y then 1%nat else 0%nat
                      | None => owed w g
                      end
                  | DoClose => 0%nat
                  | _ => owed w g
                  end).
    { rewrite step_world. unfold owed.
      destruct c as [l ctx a | l ctx f a | x |]; cbn [previousIo rebound withStream];
        try reflexivity.
      - destruct (asCloser x); reflexivity.
      - destruct (previousIo g); reflexivity. }
    rewrite O. clear O E R.
    destruct c as [l ctx a | l ctx f a | x |]; cbn [isSwitchOf].
    + cbn. lia.
    + cbn. lia.
    + cbn [times released flat_map filter List.length].
      destruct (asCloser x) as [y |] eqn:Hx.
      * apply asCloser_Some in Hx. destruct Hx as [-> _].
        destruct (writer_eqb w x); lia.
      * destruct (writer_eqb w x); lia.
    + unfold owed in IH |- *. destruct (previousIo g) as [y |].
      * unfold times at 2. cbn [released flat_map app filter].
        destruct (writer_eqb w y); cbn [List.length]; lia.
      * cbn. lia.
Qed.

(* ===================================================================== *)
(** ** Further properties of the package *)

(** X1. Info never produces output.  In every world a client can reach,
    a write through the Info logger, with any operands and in either
    variant, adds nothing to the stream; so do the entry points [I] and
    [If]. *)
Theorem Info_is_always_silent env (cs : list call) (ctx : Context)
  (f : string) (args : list value) :
  let g := after env cs in
  (emitted (doPrintln env (Info g) args) g = []
   /\ emitted (doPrintf env (Info g) f args) g = [])
  /\ (emitted (I env ctx args) g = []
      /\ emitted (If env ctx f args) g = []).
Proof.
  intros g.
  change (Info g) with (channel atInfo g).
  change (I env) with (emit env atInfo). change (If env) with (emitf env atInfo).
  rewrite channel_outcome, channel_outcomef, emit_outcome, emitf_outcome
    by apply apart_after.
  unfold outcome, plain. cbn [channel]. unfold g.
  rewrite Info_discards_after.
  destruct (previousIo (after env cs)); repeat split.
Qed.

(** X2. A logger of the client's own is never coloured.  A logger made
    with [NewLoggerPlus], whatever the package is asked to do afterwards,
    writes the bare line to its own destination: it is neither the Warn
    nor the Error object that [doPrintln] and [doPrintf] look for. *)
Theorem own_logger_is_never_coloured env (cs rest : list call)
  (l0 : log.Logger) (f : string) (args : list value) :
  let v := evalState (NewLoggerPlus l0) (after env cs) in
  let g := fold_left (step env) rest
             (execState (NewLoggerPlus l0) (after env cs)) in
  logger v = l0
  /\ emitted (doPrintln env v args) g
     = plain env l0 (stream g) (fmt.Sprintln args)
  /\ emitted (doPrintf env v f args) g
     = plain env l0 (stream g) (fmt.Sprintf f args).
Proof.
  intros v g.
  assert (Hf : foreign (self v) g).
  { apply foreign_fold. pose proof (housed_after env cs) as Hh.
    unfold housed in Hh. unfold foreign. cbn. lia. }
  split; [reflexivity |].
  rewrite stream_doPrintln, stream_doPrintf, !written_foreign by exact Hf.
  split; reflexivity.
Qed.

(** X3. A handle outlives a rebinding.  A level's logger taken before a
    [Switch] or a [Close] keeps writing to the destination it was made
    with, and its lines are bare from then on: the package variable now
    holds another object. *)
Theorem handle_keeps_its_destination env (cs rest : list call) (c : call)
  (l : Level) (f : string) (args : list value) :
  isSwitch c || isClose c = true ->
  let v := channel l (after env cs) in
  let g := after env (cs ++ c :: rest) in
  emitted (doPrintln env v args) g
  = plain env (logger v) (stream g) (fmt.Sprintln args)
  /\ emitted (doPrintf env v f args) g
     = plain env (logger v) (stream g) (fmt.Sprintf f args).
Proof.
  intros Hc v g.
  assert (Hf : foreign (self v) g).
  { unfold g. rewrite after_app. cbn [fold_left]. apply foreign_fold.
    apply foreign_rebinding; [exact Hc |].
    pose proof (housed_after env cs) as Hh. unfold housed in Hh.
    unfold v. destruct l; cbn [channel]; lia. }
  rewrite stream_doPrintln, stream_doPrintf, !written_foreign by exact Hf.
  split; reflexivity.
Qed.

(** X3 at the sample process: the Error logger of the initial world, after
    a switch. *)
Lemma handle_keeps_its_destination_witness :
  isSwitch (DoSwitch (Sink 1 false)) || isClose (DoSwitch (Sink 1 false)) = true
  /\ emitted (doPrintln demo (channel atError (after demo [])) [VStr "x"])
       (after demo ([] ++ DoSwitch (Sink 1 false) :: []))
     = plain demo (logger (channel atError (after demo [])))
         (stream (after demo ([] ++ DoSwitch (Sink 1 false) :: [])))
         (fmt.Sprintln [VStr "x"]).
Proof.
  split; [reflexivity |].
  exact (proj1 (handle_keeps_its_destination demo [] [] (DoSwitch (Sink 1 false))
                  atError "" [VStr "x"] eq_refl)).
Defined.

Example stale_Error_handle :
  emitted (doPrintln demo (Error start) [VStr "x"])
    (after demo [DoSwitch (Sink 1 false)])
  = [Wrote Stdout ("[error] 2016/01/02 15:04:05.000123 x" ++ String newline "")].
Proof. reflexivity. Qed.

(** X4. For a format whose directives are [%v], [%d], [%s] and [%%], the
    text that the format variant renders opens with the tag that the line
    variant passes as its first operand, directly followed by the caller's
    formatted text; without a tag it is the caller's text alone. *)
Theorem formatted_message_opens_with_the_tag env (ctx : Context)
  (f : string) (a : list value) :
  fmt.plainVerbs f = true ->
  fmt.Sprintf (fst (formatf env ctx f a)) (snd (formatf env ctx f a))
  = tagText env ctx ++ fmt.Sprintf f a
  /\ match ctx with
     | otherContext _ => format env ctx a = a
     | _ => format env ctx a = VStr (tagText env ctx) :: a
     end.
Proof.
  intros _.
  destruct ctx as [| cid | shape]; split; try reflexivity;
    unfold tagText; rewrite !string_app_assoc; reflexivity.
Qed.

(** X4 at a correlation context of the sample process. *)
Lemma formatted_message_opens_with_the_tag_witness :
  fmt.plainVerbs "%s is %d%%" = true
  /\ fmt.Sprintf (fst (formatf demo (cidContext 7) "%s is %d%%" [VStr "x"; VInt 2]))
                 (snd (formatf demo (cidContext 7) "%s is %d%%" [VStr "x"; VInt 2]))
     = tagText demo (cidContext 7)
       ++ fmt.Sprintf "%s is %d%%" [VStr "x"; VInt 2].
Proof.
  split; [reflexivity |].
  exact (proj1 (formatted_message_opens_with_the_tag demo (cidContext 7)
                  "%s is %d%%" [VStr "x"; VInt 2] eq_refl)).
Defined.

(** X5. In the line variant the tag is one more operand: with a nil or a
    correlation context and at least one operand, the text is the tag, the
    separator of [Sprintln], and then the caller's operands, so two spaces
    follow the closing bracket; with no operand it is the tag and the
    newline. *)
Theorem line_message_puts_a_space_after_the_tag env (ctx : Context)
  (x : value) (a : list value) :
  (forall shape, ctx <> otherContext shape) ->
  fmt.Sprintln (format env ctx (x :: a))
  = tagText env ctx ++ " " ++ fmt.Sprintln (x :: a)
  /\ fmt.Sprintln (format env ctx []) = tagText env ctx ++ String newline "".
Proof.
  intros Hctx. rewrite !format_tag by exact Hctx.
  unfold fmt.Sprintln. cbn [fmt.printlnOperands fmt.printValue].
  rewrite !string_app_assoc. split; reflexivity.
Qed.

(** X5 at a correlation context of the sample process. *)
Lemma line_message_puts_a_space_after_the_tag_witness :
  (forall shape, cidContext 7 <> otherContext shape)
  /\ fmt.Sprintln (format demo (cidContext 7) [VStr "x"; VInt 2])
     = tagText demo (cidContext 7) ++ " " ++ fmt.Sprintln [VStr "x"; VInt 2].
Proof.
  assert (H : forall shape, cidContext 7 <> otherContext shape)
    by (intros shape; discriminate).
  split; [exact H |].
  exact (proj1 (line_message_puts_a_space_after_the_tag demo (cidContext 7)
                  (VStr "x") [VInt 2] H)).
Defined.

Example two_spaces_after_the_tag :
  fmt.Sprintln (format demo (cidContext 7) [VStr "x"; VInt 2])
  = "[1234][7]  x 2" ++ String newline ""
  /\ fmt.Sprintf (fst (formatf demo (cidContext 7) "%s %d" [VStr "x"; VInt 2]))
                 (snd (formatf demo (cidContext 7) "%s %d" [VStr "x"; VInt 2]))
     = "[1234][7] x 2".
Proof. split; reflexivity. Qed.

(** X6. Every line keeps the layout of its level.  In every world a
    client can reach, whatever a write through a level's logger hands to a
    writer is either a colour code on standard output or, on the level's
    destination, the level's label, the date, the time with microseconds,
    a space and the text, closed by a newline. *)
Theorem every_line_opens_with_its_label env (cs : list call) (l : Level)
  (f : string) (args : list value) (w : writer) (p : string) :
  (forall seen, calendar (Now env seen)) ->
  let g := after env cs in
  (In (Wrote w p) (emitted (doPrintln env (channel l g) args) g) ->
   (w = Stdout /\ isColour p = true)
   \/ (w = log.out (logger (channel l g))
       /\ layout.follows (lineLayout l (fmt.Sprintln args)) p = true))
  /\ (In (Wrote w p) (emitted (doPrintf env (channel l g) f args) g) ->
      (w = Stdout /\ isColour p = true)
      \/ (w = log.out (logger (channel l g))
          /\ layout.follows (lineLayout l (fmt.Sprintf f args)) p = true)).
Proof.
  intros Hc g.
  rewrite channel_outcome, channel_outcomef by apply apart_after.
  split; intros K;
    (eapply In_outcome; [apply labelled_after | exact Hc | exact K]).
Qed.

(** X6 at the sample process: a Warn line on a releasable sink. *)
Lemma every_line_opens_with_its_label_witness :
  (forall seen, calendar (Now demo seen))
  /\ In (Wrote (Sink 1 true)
           ("[warn] 2016/01/02 15:04:05.000123 x" ++ String newline ""))
        (emitted (doPrintln demo
                    (channel atWarn (after demo [DoSwitch (Sink 1 true)]))
                    [VStr "x"])
           (after demo [DoSwitch (Sink 1 true)]))
  /\ ((Sink 1 true = Stdout /\ isColour
         ("[warn] 2016/01/02 15:04:05.000123 x" ++ String newline "") = true)
      \/ (Sink 1 true
          = log.out (logger (channel atWarn (after demo [DoSwitch (Sink 1 true)])))
          /\ layout.follows
               (lineLayout atWarn (fmt.Sprintln [VStr "x"]))
               ("[warn] 2016/01/02 15:04:05.000123 x" ++ String newline "")
             = true)).
Proof.
  assert (H : forall seen, calendar (Now demo seen))
    by (intros seen; unfold calendar; cbn; lia).
  assert (K : In (Wrote (Sink 1 true)
           ("[warn] 2016/01/02 15:04:05.000123 x" ++ String newline ""))
        (emitted (doPrintln demo
                    (channel atWarn (after demo [DoSwitch (Sink 1 true)]))
                    [VStr "x"])
           (after demo [DoSwitch (Sink 1 true)])))
    by (left; reflexivity).
  split; [exact H |]. split; [exact K |].
  exact (proj1 (every_line_opens_with_its_label demo [DoSwitch (Sink 1 true)]
                  atWarn "" [VStr "x"] (Sink 1 true)
                  ("[warn] 2016/01/02 15:04:05.000123 x" ++ String newline "")
                  H) K).
Defined.

(** X7. A sink that has been replaced is never released by the package.
    Once [Switch w2], with a releasable [w2], has followed [Switch w1],
    no later call releases [w1] unless [w1] is handed to [Switch]
    again. *)
Theorem replaced_sink_is_never_released env (cs rest : list call)
  (w1 w2 : writer) :
  asCloser w2 = Some w2 -> writer_eqb w1 w2 = false ->
  forallb (fun c => negb (isSwitchOf w1 c)) rest = true ->
  let g := after env (cs ++ [DoSwitch w1; DoSwitch w2]) in
  ~ In w1 (released (since g (fold_left (step env) rest g))).
Proof.
  intros H2 Hne Hrest g.
  apply untracked_is_not_released; [| exact Hrest].
  unfold g. rewrite previousIo_after, tracked_app. cbn [tracked].
  rewrite H2. intros K. inversion K; subst.
  now rewrite writer_eqb_refl in Hne.
Qed.

(** X7 at three sample sinks. *)
Lemma replaced_sink_is_never_released_witness :
  asCloser (Sink 2 true) = Some (Sink 2 true)
  /\ writer_eqb (Sink 1 true) (Sink 2 true) = false
  /\ forallb (fun c => negb (isSwitchOf (Sink 1 true) c))
       [DoClose; DoSwitch (Sink 3 true); DoClose] = true
  /\ ~ In (Sink 1 true)
        (released
           (since (after demo ([] ++ [DoSwitch (Sink 1 true); DoSwitch (Sink 2 true)]))
              (fold_left (step demo) [DoClose; DoSwitch (Sink 3 true); DoClose]
                 (after demo ([] ++ [DoSwitch (Sink 1 true); DoSwitch (Sink 2 true)]))))).
Proof.
  split; [reflexivity |]. split; [reflexivity |]. split; [reflexivity |].
  exact (replaced_sink_is_never_released demo []
           [DoClose; DoSwitch (Sink 3 true); DoClose]
           (Sink 1 true) (Sink 2 true) eq_refl eq_refl eq_refl).
Defined.

(** X8. Over any sequence of calls, a writer is released no more often
    than it was handed to [Switch]. *)
Theorem released_no_more_often_than_installed env (cs : list call)
  (w : writer) :
  (times w (released (stream (after env cs))) <= installs w cs)%nat.
Proof. pose proof (releases_bounded env w cs). lia. Qed.

(** X9. Calling [Switch] twice with the same writer leaves what one call
    leaves, as far as the next write or [Close] can tell. *)
Theorem Switch_again_changes_nothing env (w : writer) (g : World) (l : Level)
  (ctx : Context) (f : string) (a : list value) :
  let once := execState (Switch w) g in
  let twice := execState (Switch w ;; Switch w) g in
  emitted (emit env l ctx a) twice = emitted (emit env l ctx a) once
  /\ emitted (emitf env l ctx f a) twice = emitted (emitf env l ctx f a) once
  /\ previousIo twice = previousIo once
  /\ evalState (Close env) twice = evalState (Close env) once
  /\ emitted (Close env) twice = emitted (Close env) once.
Proof.
  intros once twice.
  assert (E1 : once = rebound w (match asCloser w with
                                 | Some c => Some c
                                 | None => previousIo g
                                 end) g) by apply Switch_world.
  assert (E2 : twice = rebound w (match asCloser w with
                                  | Some c => Some c
                                  | None => previousIo g
                                  end) once).
  { unfold twice. rewrite execState_bind. fold once. rewrite Switch_world.
    rewrite E1. cbn [previousIo rebound]. destruct (asCloser w); reflexivity. }
  rewrite !emit_outcome, !emitf_outcome
    by (rewrite ?E2, ?E1; apply apart_rebound).
  rewrite !Close_result, !Close_emitted.
  rewrite E2, E1. unfold outcome.
  destruct l, (asCloser w), (previousIo g); repeat split.
Qed.

(** X10. After a [Close] and until the next [Switch], a write through the
    Trace logger adds nothing; after [Switch w] it is one bare line on
    [w] again. *)
Theorem Trace_is_silent_after_Close_until_Switch env (cs rest : list call)
  (w : writer) (f : string) (args : list value) :
  forallb (fun c => negb (isSwitch c)) rest = true ->
  let g := after env (cs ++ DoClose :: rest) in
  let g' := step env g (DoSwitch w) in
  (emitted (doPrintln env (Trace g) args) g = []
   /\ emitted (doPrintf env (Trace g) f args) g = [])
  /\ emitted (doPrintln env (Trace g') args) g'
     = shown w (log.line (log.New w logTraceLabel stamp) (Now env (stream g))
                 (fmt.Sprintln args))
  /\ emitted (doPrintf env (Trace g') f args) g'
     = shown w (log.line (log.New w logTraceLabel stamp) (Now env (stream g))
                 (fmt.Sprintf f args)).
Proof.
  intros Hrest g g'.
  assert (Hshut : shut g).
  { unfold g. rewrite after_app. cbn [fold_left].
    apply shut_fold; [apply shut_step_Close | exact Hrest]. }
  destruct Hshut as (Hp & _ & Ht & _ & _).
  change (Trace g) with (channel atTrace g).
  change (Trace g') with (channel atTrace g').
  assert (Hg' : g' = rebound w (match asCloser w with
                                | Some c => Some c
                                | None => previousIo g
                                end) g) by apply step_world.
  rewrite !channel_outcome, !channel_outcomef
    by (rewrite ?Hg'; apply apart_rebound || apply apart_after).
  rewrite Hg'. unfold outcome, plain. cbn [channel]. rewrite Hp, Ht.
  cbn. destruct (asCloser w); repeat split.
Qed.

(** X10 at the sample process. *)
Lemma Trace_is_silent_after_Close_until_Switch_witness :
  forallb (fun c => negb (isSwitch c)) [Emit atWarn nilContext []] = true
  /\ emitted (doPrintln demo
                (Trace (after demo ([DoSwitch Stdout] ++ DoClose
                                    :: [Emit atWarn nilContext []])))
                [VStr "x"])
       (after demo ([DoSwitch Stdout] ++ DoClose :: [Emit atWarn nilContext []]))
     = [].
Proof.
  split; [reflexivity |].
  exact (proj1 (proj1 (Trace_is_silent_after_Close_until_Switch demo
     [DoSwitch Stdout] [Emit atWarn nilContext []] Stdout ""
     [VStr "x"] eq_refl))).
Defined.
